(** * The group_by and metadata processors of benthos

    A shallow embedding of [lib/processor/group_by.go] (the batch
    partitioning processor) and of the metadata processor, together with
    the properties their specification states.

    Go values with reference semantics are modelled through an explicit
    store: a message part is a location of a heap, a message is the list of
    the locations of its parts, and every function that allocates or edits a
    part threads the heap. *)

From stdpp Require Import gmap strings list fin_maps pretty.

(** ** Parts, messages and the store *)

Abbreviation loc := positive.

(** [types.Part]: payload bytes and a metadata map of string keys to string
    values. *)
Record Part := mkPart {
  part_data : string;
  part_metadata : gmap string string;
}.

Abbreviation heap := (gmap loc Part).

(** [types.Message]: the ordered parts of a batch, held by reference. *)
Abbreviation Message := (list loc).

(** [message.NewPart(nil)]: no payload, no metadata. *)
Definition NewPart_nil : Part := mkPart "" ∅.

(** Dereference of a part. *)
Definition heap_get (h : heap) (l : loc) : Part :=
  default NewPart_nil (h !! l).

(** The parts of a message, read through the store. *)
Definition contents (h : heap) (msg : Message) : list Part :=
  heap_get h <$> msg.

(** A message is allocated in a store when each of its parts is. *)
Definition allocated (h : heap) (msg : Message) : Prop :=
  ∀ l, l ∈ msg → l ∈ dom h.

(** Modelled from the spec: [Part.Copy] (lib/message). "Once assigned to a
    group, a part is duplicated so mutations performed by that group's
    chain never affect the original batch or other groups": the duplicate
    is a new part with the payload and the metadata of the original. A payload is "immutable by contract": a
    stage gives a part a new payload, it does not edit the bytes in place,
    so a payload is a value here. *)
Definition Part_Copy (p : loc) (h : heap) : loc * heap :=
  let c := fresh (dom h) in (c, <[c := heap_get h p]> h).

(** Modelled from the spec: [Message.Copy] (lib/message), the duplicate of a
    batch: a new batch of the duplicates of its parts, in order. *)
Fixpoint Message_Copy (ps : Message) (h : heap) : Message * heap :=
  match ps with
  | [] => ([], h)
  | p :: ps' =>
      let '(c, h1) := Part_Copy p h in
      let '(cs, h2) := Message_Copy ps' h1 in
      (c :: cs, h2)
  end.

(** Modelled from the spec: [message.New(nil)], a batch of no parts. *)
Definition message_New_nil : Message := [].

(** [Message.Append]. *)
Definition Append (m : Message) (p : loc) : Message := m ++ [p].

(** [Message.Iter]: the callback sees each part with its index, in order.
    No callback of these processors returns an error, so the iteration
    always runs to the end. *)
Fixpoint Iter {S : Type} (f : nat → loc → S → S) (i : nat) (parts : Message)
  (s : S) : S :=
  match parts with
  | [] => s
  | p :: parts' => Iter f (Datatypes.S i) parts' (f i p s)
  end.

(** Modelled from the spec: [message.Lock(msg, i)], the read-only view a
    condition is given: part [i] "in the context of the full original
    batch". A condition is a pure read, so the view is the parts' values. *)
Record LockedMessage := mkLocked {
  locked_parts : list Part;
  locked_index : nat;
}.

Definition Lock (h : heap) (msg : Message) (i : nat) : LockedMessage :=
  mkLocked (contents h msg) i.

(** [types.Response]; a Go nil response is [None] of [option Response]. *)
Record Response := mkResponse {
  Error : option string;
  SkipAck : bool;
}.

(** [response.NewAck()]. *)
Definition NewAck : Response := mkResponse None false.

(** [processor.Type]: one transform stage, by its method [ProcessMessage].
    It may allocate and edit parts, returns zero or more batches and an
    optional response. *)
Abbreviation ProcessorType :=
  (Message → heap → (list Message * option Response) * heap).

(** ** group_by.go *)

Record group := mkGroup {
  Condition : LockedMessage → bool;
  Processors : list ProcessorType;
}.

(** [GroupBy]; its logger is the [log] component of the results below, its
    counters are write-only and left out. *)
Record GroupBy := mkGroupBy {
  groups : list group;
}.

(** Lines 237-243: the first group, from index [j] on, whose condition
    passes. *)
Fixpoint check_groups (gs : list group) (j : nat) (lm : LockedMessage)
  : option nat :=
  match gs with
  | [] => None
  | grp :: gs' =>
      if Condition grp lm then Some j else check_groups gs' (S j) lm
  end.

(** Lines 236-248, the callback given to [msg.Iter]. The state is the
    working batch of each group, the batch of the parts of no group, and the
    store. *)
Definition route_part (g : GroupBy) (msg : Message) (i : nat) (p : loc)
  (st : list Message * Message * heap) : list Message * Message * heap :=
  let '(grps, groupless, h) := st in
  match check_groups (groups g) 0 (Lock h msg i) with
  | Some j =>
      let '(c, h') := Part_Copy p h in
      (alter (λ m, Append m c) j grps, groupless, h')
  | None =>
      let '(c, h') := Part_Copy p h in
      (grps, Append groupless c, h')
  end.

(** Lines 230-248. *)
Definition partition (g : GroupBy) (msg : Message) (h : heap)
  : list Message * Message * heap :=
  let grps := replicate (length (groups g)) message_New_nil in
  let groupless := message_New_nil in
  Iter (route_part g msg) 0 msg (grps, groupless, h).

(** Lines 260-264: one stage applied to each batch of the working set in
    turn. [next] accumulates the batches produced, [res] is overwritten by
    the response of every call. *)
Fixpoint apply_stage (proc : ProcessorType) (resultMsgs : list Message)
  (next : list Message) (res : option Response) (h : heap)
  : (list Message * option Response) * heap :=
  match resultMsgs with
  | [] => ((next, res), h)
  | m :: rest =>
      let '((rMsgs, res'), h') := proc m h in
      apply_stage proc rest (next ++ rMsgs) res' h'
  end.

(** Lines 258-266: [for j := 0; len(resultMsgs) > 0 && j < len(procs); j++],
    on the stages from [j] on. *)
Fixpoint run_stages (procs : list ProcessorType) (resultMsgs : list Message)
  (res : option Response) (h : heap)
  : (list Message * option Response) * heap :=
  match procs with
  | [] => ((resultMsgs, res), h)
  | proc :: procs' =>
      if bool_decide (0 < length resultMsgs) then
        let '((next, res'), h') := apply_stage proc resultMsgs [] res h in
        run_stages procs' next res' h'
      else ((resultMsgs, res), h)
  end.

(** The line feed that ends a log line. *)
Definition newline : string := String (Ascii.ascii_of_nat 10) EmptyString.

(** Lines 271-275: the error of the last response, when there is one, is
    logged. *)
Definition log_response (res : option Response) (log : list string)
  : list string :=
  match res with
  | Some r =>
      match Error r with
      | Some err => log ++ ["Processor error: " +:+ err +:+ newline]
      | None => log
      end
  | None => log
  end.

(** The stages of group [i]; [g.groups[i]] is always in range, as the
    working batches are as many as the groups. *)
Definition group_processors (g : GroupBy) (i : nat) : list ProcessorType :=
  match groups g !! i with
  | Some grp => Processors grp
  | None => []
  end.

(** Lines 251-276: the body of the loop over the working batches. *)
Definition process_group (g : GroupBy) (i : nat) (gmsg : Message)
  (st : list Message * heap * list string)
  : list Message * heap * list string :=
  let '(msgs, h, log) := st in
  if bool_decide (length gmsg = 0) then (msgs, h, log)
  else
    let '((resultMsgs, res), h') :=
      run_stages (group_processors g i) [gmsg] None h in
    let msgs' :=
      if bool_decide (0 < length resultMsgs) then msgs ++ resultMsgs
      else msgs in
    (msgs', h', log_response res log).

(** Lines 250-276: [for i, gmsg := range groups]. *)
Fixpoint process_groups (g : GroupBy) (i : nat) (grps : list Message)
  (st : list Message * heap * list string)
  : list Message * heap * list string :=
  match grps with
  | [] => st
  | gmsg :: grps' => process_groups g (S i) grps' (process_group g i gmsg st)
  end.

(** The outcome of an invocation: the batches and the response returned,
    the store and the log lines written. *)
Record Outcome := mkOutcome {
  out_msgs : list Message;
  out_res : option Response;
  out_heap : heap;
  out_log : list string;
}.

(** Lines 230-280: the batches to forward, with the store and the log
    lines written on the way. *)
Definition collect (g : GroupBy) (msg : Message) (h : heap)
  : list Message * heap * list string :=
  let '(grps, groupless, h1) := partition g msg h in
  let '(msgs, h2, log) := process_groups g 0 grps ([], h1, []) in
  if bool_decide (0 < length groupless) then (msgs ++ [groupless], h2, log)
  else (msgs, h2, log).

(** [GroupBy.ProcessMessage], lines 222-292. *)
Definition ProcessMessage (g : GroupBy) (msg : Message) (h : heap) : Outcome :=
  if bool_decide (length msg = 0) then mkOutcome [] (Some NewAck) h []
  else
    let '(msgs, h2, log) := collect g msg h in
    if bool_decide (length msgs = 0) then mkOutcome [] (Some NewAck) h2 log
    else mkOutcome msgs None h2 log.


(** ** The partition, as the specification words it

    Every part is duplicated, in order; the duplicate of part [i] goes to
    the first group whose condition part [i] passes, and to the batch of
    the parts of no group when there is none. *)

(** Whether group [k] is the first whose condition passes on [lm]. *)
Definition first_match (gs : list group) (lm : LockedMessage) (k : nat)
  : Prop :=
  (∃ grp, gs !! k = Some grp ∧ Condition grp lm = true) ∧
  (∀ k' grp', k' < k → gs !! k' = Some grp' → Condition grp' lm = false).

(** Whether no condition passes on [lm]. *)
Definition no_match (gs : list group) (lm : LockedMessage) : Prop :=
  ∀ k grp, gs !! k = Some grp → Condition grp lm = false.

(** Where line 238 sends part [i] of [msg]: [Some j] is group [j], [None]
    is the batch of the parts of no group. *)
Definition destination (g : GroupBy) (h : heap) (msg : Message) (i : nat)
  : option nat :=
  check_groups (groups g) 0 (Lock h msg i).

(** The parts of [cs], numbered from [i], that [dst] sends to [d]. *)
Fixpoint assigned (dst : nat → option nat) (d : option nat) (i : nat)
  (cs : Message) : Message :=
  match cs with
  | [] => []
  | c :: cs' =>
      if decide (dst i = d) then c :: assigned dst d (S i) cs'
      else assigned dst d (S i) cs'
  end.

(** Whether part [c] is in the working batch of group [k]. *)
Definition in_group (grps : list Message) (k : nat) (c : loc) : Prop :=
  ∃ m, grps !! k = Some m ∧ c ∈ m.

(** ** The chain of a group, as the specification words it

    "Maintain a working set of batches, initialized to the single group
    batch. For each stage in the chain, in order: apply the stage to every
    batch currently in the working set, replacing the working set with the
    concatenation of all batches each application produces. If the working
    set becomes empty, stop processing remaining stages for this group." *)

(** One stage applied to every batch of a working set, the batches produced
    concatenated. *)
Fixpoint stage_over (proc : ProcessorType) (ws : list Message) (h : heap)
  : list Message * heap :=
  match ws with
  | [] => ([], h)
  | m :: ws' =>
      let '((outs, _), h1) := proc m h in
      let '(rest, h2) := stage_over proc ws' h1 in
      (outs ++ rest, h2)
  end.

(** One step of the fold: a stage is skipped when the working set is
    empty. *)
Definition chain_step (st : list Message * heap) (proc : ProcessorType)
  : list Message * heap :=
  match st.1 with
  | [] => st
  | _ :: _ => stage_over proc st.1 st.2
  end.

Definition chain_fold (procs : list ProcessorType) (gmsg : Message) (h : heap)
  : list Message * heap :=
  fold_left chain_step procs ([gmsg], h).

(** The chains of the groups whose working batch has parts, run in group
    order, every batch they leave collected. *)
Definition run_chains (gs : list group) (grps : list Message) (h : heap)
  : list Message * heap :=
  fold_left
    (λ (st : list Message * heap) (x : group * Message),
       let '(outs, h') := chain_fold (Processors x.1) x.2 st.2 in
       (st.1 ++ outs, h'))
    (filter (λ x : group * Message, x.2 ≠ []) (zip gs grps))
    ([], h).

(** The batch of the parts of no group, when it has parts. *)
Definition residual (groupless : Message) : list Message :=
  match groupless with
  | [] => []
  | _ :: _ => [groupless]
  end.

(** A stage that produces the batches and the store of [proc] and reports
    nothing. *)
Definition silence (proc : ProcessorType) : ProcessorType :=
  λ m h, let '((outs, _), h') := proc m h in ((outs, None), h').

Definition silence_group (grp : group) : group :=
  mkGroup (Condition grp) (silence <$> Processors grp).

Definition silence_all (g : GroupBy) : GroupBy :=
  mkGroupBy (silence_group <$> groups g).

(** The output collection as the specification words it: "every non-empty
    batch surviving" the chain of each group, then the batch of the parts of
    no group when it has parts. *)
Definition collection_of_non_empty (g : GroupBy) (msg : Message) (h : heap)
  : list Message :=
  let '(grps, groupless, h1) := partition g msg h in
  filter (λ m : Message, m ≠ []) (run_chains (groups g) grps h1).1
  ++ residual groupless.

(** A stage is local when it edits no part but those of the batch it is
    given, and the batches it returns are made of parts of that batch and of
    parts it allocated. *)
Definition local (proc : ProcessorType) : Prop :=
  ∀ (m : Message) (h : heap),
    (∀ l, l ∈ dom h → l ∉ m → (proc m h).2 !! l = h !! l) ∧
    (∀ m' l, m' ∈ (proc m h).1.1 → l ∈ m' → l ∈ dom h → l ∈ m).

(** For a set [P] of parts to protect: the store holds them all; no batch
    of a working set has one of them; a later store has them as they
    were. *)
Definition covers (P : loc → Prop) (h : heap) : Prop := ∀ l, P l → l ∈ dom h.

Definition avoids (P : loc → Prop) (ws : list Message) : Prop :=
  ∀ m l, m ∈ ws → l ∈ m → ¬ P l.

Definition keeps (P : loc → Prop) (h h' : heap) : Prop :=
  ∀ l, P l → h' !! l = h !! l.

Definition local_stages (g : GroupBy) : Prop :=
  ∀ grp proc, grp ∈ groups g → proc ∈ Processors grp → local proc.

(** ** The metadata processor *)

(** Modelled from the spec: the functions of [lib/util/text] that detect and
    resolve the "dynamic substitutions" of a value "against the batch being
    processed"; they only read the batch. *)
Class Text := {
  ContainsFunctionVariables : string → bool;
  ReplaceFunctionVariables : list Part → string → string;
}.

(** [MetadataConfig]. *)
Record MetadataConfig := mkMetadataConfig {
  Parts : list Z;
  Operator : string;
  Key : string;
  Value : string;
}.

Definition NewMetadataConfig : MetadataConfig :=
  mkMetadataConfig [] "set" "example" "${!hostname}".

(** [metadataOperator]: the metadata map is edited in place, so the edited
    map is returned, with the error. *)
Abbreviation metadataOperator :=
  (gmap string string → string → gmap string string * option string).

(** [Metadata.Iter], the callback run on every key and value. *)
Definition Metadata_Iter {S : Type} (m : gmap string string)
  (f : string → string → S → S) (s : S) : S :=
  foldr (λ kv, f kv.1 kv.2) s (map_to_list m).

Definition newMetadataSetOperator (key : string) : metadataOperator :=
  λ m value, (<[key:=value]> m, None).

Definition newMetadataDeleteAllOperator (key : string) : metadataOperator :=
  λ m value, (Metadata_Iter m (λ k _ m', delete k m') m, None).

Definition newMetadataDeletePrefixOperator (key : string) : metadataOperator :=
  λ m value,
    let prefix := value in
    (Metadata_Iter m
       (λ k _ m', if String.prefix prefix k then delete k m' else m') m,
     None).

Definition getMetadataOperator (opStr key : string)
  : metadataOperator + string :=
  if String.eqb opStr "set" then inl (newMetadataSetOperator key)
  else if String.eqb opStr "delete_all" then
    inl (newMetadataDeleteAllOperator key)
  else if String.eqb opStr "delete_prefix" then
    inl (newMetadataDeletePrefixOperator key)
  else inr ("operator not recognised: " +:+ opStr).

(** [Metadata], without its logger and counters. *)
Record Metadata := mkMetadata {
  interpolate : bool;
  valueBytes : string;
  operator : metadataOperator;
  parts : list Z;
}.

(** Modelled from the spec: [Message.Get] (lib/message). An index of the
    "configurable index subset" names a part from the start of the batch,
    or from its end when it is negative; an index that names no part yields
    a new empty part, which belongs to no batch. *)
Definition resolve_index (n : nat) (index : Z) : option nat :=
  let index' := (if bool_decide (index < 0) then Z.of_nat n + index
                 else index)%Z in
  if bool_decide (index' < 0 ∨ Z.of_nat n ≤ index')%Z then None
  else Some (Z.to_nat index').

Definition Message_Get (m : Message) (index : Z) (h : heap) : loc * heap :=
  match resolve_index (length m) index ≫= (m !!.) with
  | Some l => (l, h)
  | None => let l := fresh (dom h) in (l, <[l:=NewPart_nil]> h)
  end.

(** Line 207: the operator run on the metadata of a part. *)
Definition apply_operator (op : metadataOperator) (l : loc) (value : string)
  (h : heap) : heap * option string :=
  let p := heap_get h l in
  let '(md, err) := op (part_metadata p) value in
  (<[l:=mkPart (part_data p) md]> h, err).

Section metadata.
Context {text : Text}.

(** [NewMetadata]. *)
Definition NewMetadata (conf : MetadataConfig) : Metadata + string :=
  match getMetadataOperator (Operator conf) (Key conf) with
  | inl op =>
      inl (mkMetadata (ContainsFunctionVariables (Value conf)) (Value conf)
             op (Parts conf))
  | inr err => inr err
  end.

(** Lines 206-211, one turn of the loop. *)
Definition edit_target (p : Metadata) (newMsg : Message) (value : string)
  (st : heap * list string) (index : Z) : heap * list string :=
  let '(l, h1) := Message_Get newMsg index st.1 in
  let '(h2, err) := apply_operator (operator p) l value h1 in
  match err with
  | Some e =>
      (h2, st.2 ++ ["Failed to apply operator: " +:+ e +:+ newline])
  | None => (h2, st.2)
  end.

(** [Metadata.ProcessMessage], lines 188-218. *)
Definition Metadata_ProcessMessage (p : Metadata) (msg : Message) (h : heap)
  : Outcome :=
  let '(newMsg, h1) := Message_Copy msg h in
  let value :=
    if interpolate p then
      ReplaceFunctionVariables (contents h1 msg) (valueBytes p)
    else valueBytes p in
  let targetParts :=
    if bool_decide (length (parts p) = 0) then
      Z.of_nat <$> seq 0 (length newMsg)
    else parts p in
  let '(h2, log) := foldl (edit_target p newMsg value) (h1, []) targetParts in
  mkOutcome [newMsg] None h2 log.

(** The metadata processor as a stage. *)
Definition Metadata_as_processor (p : Metadata) : ProcessorType :=
  λ msg h,
    let o := Metadata_ProcessMessage p msg h in
    ((out_msgs o, out_res o), out_heap o).
End metadata.

(** ** The metadata edits, as the specification words them *)

(** What an operation does to a metadata map. *)
Definition operation (opStr key value : string) (m : gmap string string)
  : gmap string string :=
  if String.eqb opStr "set" then <[key:=value]> m
  else if String.eqb opStr "delete_all" then ∅
  else if String.eqb opStr "delete_prefix" then
    filter (λ kv, String.prefix value kv.1 = false) m
  else m.

(** Whether part [k] of a batch of [n] parts is in the index subset. *)
Definition targeted (subset : list Z) (n k : nat) : bool :=
  bool_decide (subset = []) ||
  existsb (λ index, bool_decide (resolve_index n index = Some k)) subset.

(** The value a configuration gives to its operation on a batch. *)
Definition resolved_value {text : Text} (conf : MetadataConfig)
  (batch : list Part) : string :=
  if ContainsFunctionVariables (Value conf) then
    ReplaceFunctionVariables batch (Value conf)
  else Value conf.

(** A part after the operation. *)
Definition edited (opStr key value : string) (p : Part) : Part :=
  mkPart (part_data p) (operation opStr key value (part_metadata p)).

(** ** Concrete conditions, stages and batches *)

(** A decidable form of [allocated]. *)
Definition allocatedb (h : heap) (msg : Message) : bool :=
  forallb (λ l, bool_decide (is_Some (h !! l))) msg.

(** Whether [sub] occurs in [s]. *)
Definition contains (sub s : string) : bool :=
  match String.index 0 sub s with
  | Some _ => true
  | None => false
  end.

(** The text condition with the operator contains: on the payload of the
    part the view is locked to. *)
Definition text_contains (arg : string) : LockedMessage → bool :=
  λ lm,
    match locked_parts lm !! locked_index lm with
    | Some p => contains arg (part_data p)
    | None => false
    end.

(** A condition that always passes. *)
Definition static_true : LockedMessage → bool := λ _, true.

(** Values without dynamic substitutions. *)
Definition plain_text : Text :=
  {| ContainsFunctionVariables := λ _, false;
     ReplaceFunctionVariables := λ _ value, value |}.

(** Values whose one substitution reads the metadata key "grouping" of the
    first part of the batch. *)
Definition first_part_text : Text :=
  {| ContainsFunctionVariables := λ value, contains "${!" value;
     ReplaceFunctionVariables := λ batch _,
       match batch with
       | p :: _ => default "none" (part_metadata p !! "grouping")
       | [] => "none"
       end |}.

(** The metadata stage that sets the key "grouping" to "foo". *)
Definition set_grouping_conf : MetadataConfig :=
  mkMetadataConfig [] "set" "grouping" "foo".

Definition set_grouping : Metadata :=
  mkMetadata false "foo" (newMetadataSetOperator "grouping") [].

(** A stage that edits in place the parts it is given: it sets a metadata
    key on each of them and returns the batch it was given. *)
Definition stamp (key value : string) : ProcessorType :=
  λ m h,
    (([m], None),
     foldr (λ l h',
              alter (λ p, mkPart (part_data p)
                            (<[key:=value]> (part_metadata p))) l h')
           h m).

(** A stage that answers with one batch of no parts. *)
Definition strip : ProcessorType := λ _ h, (([[]], None), h).

(** A stage that splits a batch in two: its first part, and the rest. *)
Definition split_first : ProcessorType :=
  λ m h, (([take 1 m; drop 1 m], None), h).

(** A stage that returns its batch and reports an error. *)
Definition failing : ProcessorType :=
  λ m h, (([m], Some (mkResponse (Some "boom") false)), h).

(** The scenario of the specification: the parts foo1, bar1 and foo2, and
    one group for the payloads that contain foo. *)
Definition scenario_heap : heap :=
  <[1%positive := mkPart "foo1" ∅]>
    (<[2%positive := mkPart "bar1" ∅]>
       (<[3%positive := mkPart "foo2" ∅]> ∅)).

Definition scenario_msg : Message := [1%positive; 2%positive; 3%positive].

Definition scenario_groups : GroupBy :=
  mkGroupBy
    [mkGroup (text_contains "foo")
       [Metadata_as_processor (text := plain_text) set_grouping]].

(** Two groups that both accept the payloads with foo, the second one
    everything, with stages that edit in place. *)
Definition overlapping_groups : GroupBy :=
  mkGroupBy
    [mkGroup (text_contains "foo") [stamp "grouping" "foo"];
     mkGroup static_true [stamp "grouping" "any"; failing]].

(** One group that takes every part and leaves one batch of no parts. *)
Definition stripping_groups : GroupBy :=
  mkGroupBy [mkGroup static_true [strip]].

(** One group that takes every part and splits its batch. *)
Definition splitting_groups : GroupBy :=
  mkGroupBy [mkGroup static_true [split_first]].

(** A configuration of the metadata stage whose value is resolved against
    the batch, and a batch whose first part has the key it reads. *)
Definition resolved_conf : MetadataConfig :=
  mkMetadataConfig [0; -1]%Z "set" "grouping" "${!metadata:grouping}".

Definition resolved_stage : Metadata :=
  mkMetadata true "${!metadata:grouping}" (newMetadataSetOperator "grouping")
    [0; -1]%Z.

Definition tagged_heap : heap :=
  <[1%positive := mkPart "a" {["grouping" := "first"]}]>
    (<[2%positive := mkPart "b" ∅]>
       (<[3%positive := mkPart "c" {["grouping" := "last"]}]> ∅)).

(** ** Stages that keep the parts of a batch

    A stage keeps its batch when it answers with exactly one batch, of as
    many parts as the batch it was given. *)
Definition preserving (proc : ProcessorType) : Prop :=
  ∀ (m : Message) (h : heap),
    ∃ m', (proc m h).1.1 = [m'] ∧ length m' = length m.

Definition preserving_stages (g : GroupBy) : Prop :=
  ∀ grp proc, grp ∈ groups g → proc ∈ Processors grp → preserving proc.

(** A stage that never reports: all its responses are nil. *)
Definition quiet (proc : ProcessorType) : Prop :=
  ∀ (m : Message) (h : heap), (proc m h).1.2 = None.

(** The working batches that have parts. *)
Definition non_empty (grps : list Message) : list Message :=
  filter (λ m : Message, m ≠ []) grps.

(** A batch after the metadata stage, as values: the parts of the index
    subset with the operation on their metadata, the others as they are. *)
Definition edit_batch (subset : list Z) (opStr key value : string)
  (batch : list Part) : list Part :=
  imap (λ k p, if targeted subset (length batch) k
               then edited opStr key value p else p) batch.

(** ** Construction of a [GroupBy] *)

(** Modelled from the spec: the builders of the predicate and of the stage
    capabilities, [condition.New] and [New], which are given a
    configuration and the namespace "derived from the entry's position"
    and may fail. *)
Class Builders := {
  ConditionConfig : Type;
  ProcessorConfig : Type;
  condition_New : ConditionConfig → string → (LockedMessage → bool) + string;
  processor_New : ProcessorConfig → string → ProcessorType + string;
}.

Section construction.
Context {builders : Builders}.

(** [GroupByElement]. *)
Record GroupByElement := mkGroupByElement {
  conf_Condition : ConditionConfig;
  conf_Processors : list ProcessorConfig;
}.

(** [GroupByConfig]. *)
Definition GroupByConfig : Type := list GroupByElement.

(** [NewGroupByConfig]. *)
Definition NewGroupByConfig : GroupByConfig := [].

(** Line 185. *)
Definition groupPrefix (i : nat) : string :=
  "processor.group_by.groups." +:+ pretty i.

(** Lines 192-198: the stages of group [i], from stage [j] on, appended to
    those already built. *)
Fixpoint build_processors (pConfs : list ProcessorConfig) (i j : nat)
  (procs : list ProcessorType) : list ProcessorType + string :=
  match pConfs with
  | [] => inl procs
  | pConf :: pConfs' =>
      match processor_New pConf (groupPrefix i) with
      | inr err =>
          inr ("failed to create processor '" +:+ pretty j
               +:+ "' for group '" +:+ pretty i +:+ "': " +:+ err)
      | inl proc => build_processors pConfs' i (S j) (procs ++ [proc])
      end
  end.

(** Lines 184-201: the groups from index [i] on. *)
Fixpoint build_groups (gConfs : list GroupByElement) (i : nat)
  : list group + string :=
  match gConfs with
  | [] => inl []
  | gConf :: gConfs' =>
      match condition_New (conf_Condition gConf) (groupPrefix i) with
      | inr err =>
          inr ("failed to create condition for group '" +:+ pretty i
               +:+ "': " +:+ err)
      | inl cond =>
          match build_processors (conf_Processors gConf) i 0 [] with
          | inr err => inr err
          | inl procs =>
              match build_groups gConfs' (S i) with
              | inr err => inr err
              | inl gs => inl (mkGroup cond procs :: gs)
              end
          end
      end
  end.

(** [NewGroupBy], lines 177-216. *)
Definition NewGroupBy (conf : GroupByConfig) : GroupBy + string :=
  match build_groups conf 0 with
  | inl gs => inl (mkGroupBy gs)
  | inr err => inr err
  end.

(** An element builds when its condition and all its stages do. *)
Definition builds (i : nat) (gConf : GroupByElement) : Prop :=
  (∃ cond, condition_New (conf_Condition gConf) (groupPrefix i) = inl cond) ∧
  ∀ pConf, pConf ∈ conf_Processors gConf →
    ∃ proc, processor_New pConf (groupPrefix i) = inl proc.

(** Group [grp] is what element [gConf] at position [i] builds. *)
Definition built_from (i : nat) (gConf : GroupByElement) (grp : group)
  : Prop :=
  condition_New (conf_Condition gConf) (groupPrefix i) = inl (Condition grp) ∧
  Forall2 (λ pConf proc, processor_New pConf (groupPrefix i) = inl proc)
    (conf_Processors gConf) (Processors grp).
End construction.

(** ** More concrete configurations *)

(** Two groups without stages. *)
Definition bare_groups : GroupBy :=
  mkGroupBy
    [mkGroup (text_contains "foo") []; mkGroup (text_contains "bar") []].

(** A group whose first stage reports an error and whose last stage does
    not. *)
Definition recovering_groups : GroupBy :=
  mkGroupBy [mkGroup static_true [failing; stamp "grouping" "any"]].

(** A configuration whose stages are all metadata stages. *)
Definition metadata_stages {text : Text} (g : GroupBy) : Prop :=
  ∀ grp proc, grp ∈ groups g → proc ∈ Processors grp →
    ∃ p, proc = Metadata_as_processor p.

Definition quiet_stages (g : GroupBy) : Prop :=
  ∀ grp proc, grp ∈ groups g → proc ∈ Processors grp → quiet proc.

(** Builders for the witnesses: a condition is configured by the text a
    payload must contain, and must not be empty; a stage is a metadata
    stage. *)
Definition text_builders : Builders :=
  {| ConditionConfig := string;
     ProcessorConfig := MetadataConfig;
     condition_New := λ arg _,
       if String.eqb arg "" then inr "empty argument"
       else inl (text_contains arg);
     processor_New := λ conf _,
       match NewMetadata (text := plain_text) conf with
       | inl p => inl (Metadata_as_processor (text := plain_text) p)
       | inr err => inr err
       end |}.

Definition bogus_conf : MetadataConfig :=
  mkMetadataConfig [] "bogus" "grouping" "foo".

(** A configuration that builds, and two that do not. *)
Definition good_config : GroupByConfig (builders := text_builders) :=
  [mkGroupByElement (builders := text_builders) "foo" [set_grouping_conf];
   mkGroupByElement (builders := text_builders) "bar" []].

Definition bad_stage_config : GroupByConfig (builders := text_builders) :=
  [mkGroupByElement (builders := text_builders) "foo" [set_grouping_conf];
   mkGroupByElement (builders := text_builders) "bar"
     [set_grouping_conf; bogus_conf];
   mkGroupByElement (builders := text_builders) "" []].

Definition bad_condition_config : GroupByConfig (builders := text_builders) :=
  [mkGroupByElement (builders := text_builders) "foo" [set_grouping_conf];
   mkGroupByElement (builders := text_builders) "" [bogus_conf]].

(** A group that no part of the scenario batch passes, with a stage that
    would strip its batch. *)
Definition unmatched_groups : GroupBy :=
  mkGroupBy [mkGroup (text_contains "baz") [strip]].

(** A catch-all group before a group for the payloads with foo. *)
Definition shadowing_groups : GroupBy :=
  mkGroupBy
    [mkGroup static_true []; mkGroup (text_contains "foo") [strip]].

(** What [good_config] builds. *)
Definition good_groups : GroupBy :=
  mkGroupBy
    [mkGroup (text_contains "foo")
       [Metadata_as_processor (text := plain_text) set_grouping];
     mkGroup (text_contains "bar") []].

(** ** Sanitised configuration *)

(** The values of a sanitised configuration: an opaque value, a list
    ([[]interface{}]) or a map of string keys ([map[string]interface{}]). *)
#[warnings="-register-all"]
Inductive sanitised : Type :=
  | SanitValue (x : string)
  | SanitList (l : list sanitised)
  | SanitMap (m : gmap string sanitised).

(** Modelled from the spec: [condition.SanitiseConfig] and
    [SanitiseConfig], which sanitise the "opaque" specification of a
    predicate and of a stage, and may fail. *)
Class Sanitisers {builders : Builders} := {
  condition_SanitiseConfig : ConditionConfig → sanitised + string;
  SanitiseConfig : ProcessorConfig → sanitised + string;
}.

Section sanitise.
Context {builders : Builders} {sanitisers : Sanitisers}.

(** Lines 116-122. *)
Fixpoint sanitise_processors (pConfs : list ProcessorConfig)
  (procsSanit : list sanitised) : list sanitised + string :=
  match pConfs with
  | [] => inl procsSanit
  | p :: pConfs' =>
      match SanitiseConfig p with
      | inr err => inr err
      | inl procSanit => sanitise_processors pConfs' (procsSanit ++ [procSanit])
      end
  end.

(** Lines 110-127. *)
Fixpoint sanitise_groups (gConfs : list GroupByElement)
  (groups : list sanitised) : list sanitised + string :=
  match gConfs with
  | [] => inl groups
  | g :: gConfs' =>
      match condition_SanitiseConfig (conf_Condition g) with
      | inr err => inr err
      | inl condSanit =>
          match sanitise_processors (conf_Processors g) [] with
          | inr err => inr err
          | inl procsSanit =>
              sanitise_groups gConfs'
                (groups ++
                 [SanitMap {[ "condition" := condSanit;
                              "processors" := SanitList procsSanit ]}])
          end
      end
  end.

(** [sanitiseConfigFunc], lines 108-129. *)
Definition sanitiseConfigFunc (conf : GroupByConfig) : sanitised + string :=
  match sanitise_groups conf [] with
  | inl groups => inl (SanitList groups)
  | inr err => inr err
  end.

(** Entry [s] is what element [g] sanitises to. *)
Definition sanitised_from (g : GroupByElement) (s : sanitised) : Prop :=
  ∃ condSanit procsSanit,
    s = SanitMap {[ "condition" := condSanit;
                    "processors" := SanitList procsSanit ]} ∧
    condition_SanitiseConfig (conf_Condition g) = inl condSanit ∧
    Forall2 (λ p procSanit, SanitiseConfig p = inl procSanit)
      (conf_Processors g) procsSanit.
End sanitise.

(** Sanitisers for the witnesses: a condition is sanitised to its text, a
    stage to the name of its operator, when it is a known one. *)
Definition text_sanitisers : Sanitisers (builders := text_builders) :=
  @Build_Sanitisers text_builders
    (λ arg : string, inl (SanitValue arg))
    (λ conf : MetadataConfig,
       match getMetadataOperator (Operator conf) (Key conf) with
       | inl _ => inl (SanitValue (Operator conf))
       | inr err => inr err
       end).

(** What [good_config] sanitises to. *)
Definition good_sanitised : sanitised :=
  SanitList
    [SanitMap {[ "condition" := SanitValue "foo";
                 "processors" := SanitList [SanitValue "set"] ]};
     SanitMap {[ "condition" := SanitValue "bar";
                 "processors" := SanitList [] ]}].

(** The metadata stage that removes all metadata. *)
Definition delete_all_conf : MetadataConfig :=
  mkMetadataConfig [] "delete_all" "" "".

Definition delete_all_stage : Metadata :=
  mkMetadata false "" (newMetadataDeleteAllOperator "") [].

(** * Properties *)

(** ** Routing of one part *)

Lemma check_groups_Some gs j lm k :
  check_groups gs j lm = Some k →
  j ≤ k ∧ first_match gs lm (k - j).
Proof.
  revert j. induction gs as [|grp gs IH]; intros j; simpl; [done|].
  destruct (Condition grp lm) eqn:Hc.
  - intros [= <-]. split; [lia|]. rewrite Nat.sub_diag. split.
    + by exists grp.
    + intros k' grp' Hlt. lia.
  - intros Hk. destruct (IH _ Hk) as (Hle & (grp1 & Hl1 & Hc1) & Hfirst).
    split; [lia|].
    replace (k - j) with (S (k - S j)) by lia. split.
    + by exists grp1.
    + intros [|k'] grp' Hlt; simpl.
      * by intros [= <-].
      * apply Hfirst. lia.
Qed.

Lemma check_groups_None gs j lm :
  check_groups gs j lm = None ↔ no_match gs lm.
Proof.
  revert j. induction gs as [|grp gs IH]; intros j; simpl.
  - split; [|done]. by intros _ k grp.
  - destruct (Condition grp lm) eqn:Hc.
    + split; [done|]. intros Hno. specialize (Hno 0 grp eq_refl). congruence.
    + rewrite IH. split.
      * intros Hno [|k] grp'; simpl; [by intros [= <-]|apply Hno].
      * intros Hno k grp' Hl. by apply (Hno (S k)).
Qed.

Lemma first_match_lt gs lm k : first_match gs lm k → k < length gs.
Proof. intros [(grp & Hl & _) _]. by eapply lookup_lt_Some. Qed.

Lemma first_match_unique gs lm k1 k2 :
  first_match gs lm k1 → first_match gs lm k2 → k1 = k2.
Proof.
  intros [(g1 & Hl1 & Hc1) H1] [(g2 & Hl2 & Hc2) H2].
  destruct (Nat.lt_trichotomy k1 k2) as [Hlt|[->|Hlt]]; [|done|].
  - specialize (H2 _ _ Hlt Hl1). congruence.
  - specialize (H1 _ _ Hlt Hl2). congruence.
Qed.

Lemma check_groups_first_match gs lm k :
  check_groups gs 0 lm = Some k ↔ first_match gs lm k.
Proof.
  split.
  - intros Hk. apply check_groups_Some in Hk as [_ Hk].
    by rewrite Nat.sub_0_r in Hk.
  - intros Hk. destruct (check_groups gs 0 lm) as [k'|] eqn:Hck.
    + apply check_groups_Some in Hck as [_ Hck].
      rewrite Nat.sub_0_r in Hck. f_equal. by eapply first_match_unique.
    + apply check_groups_None in Hck.
      destruct Hk as [(grp & Hl & Hc) _]. specialize (Hck _ _ Hl). congruence.
Qed.

(** ** Conservation of the parts *)

(** The number of parts held by a list of batches. *)
Lemma sum_lengths_alter_Append (grps : list Message) j c :
  j < length grps →
  sum_list (length <$> alter (λ m, Append m c) j grps)
  = S (sum_list (length <$> grps)).
Proof.
  revert j. induction grps as [|m grps IH]; intros j Hj; simpl in Hj; [lia|].
  destruct j as [|j]; csimpl.
  - unfold Append. rewrite length_app. simpl. lia.
  - specialize (IH j ltac:(lia)). csimpl in IH. lia.
Qed.

Lemma route_part_count g msg i p grps gl h :
  length grps = length (groups g) →
  let r := route_part g msg i p (grps, gl, h) in
  length r.1.1 = length grps ∧
  sum_list (length <$> r.1.1) + length r.1.2
  = S (sum_list (length <$> grps) + length gl).
Proof.
  intros Hlen. unfold route_part, Part_Copy.
  destruct (check_groups _ _ _) as [j|] eqn:Hj; simpl.
  - apply check_groups_first_match, first_match_lt in Hj.
    rewrite length_alter, sum_lengths_alter_Append by lia. done.
  - unfold Append. rewrite length_app. simpl. lia.
Qed.

Lemma Iter_route_count g msg ps : ∀ i grps gl h,
  length grps = length (groups g) →
  let r := Iter (route_part g msg) i ps (grps, gl, h) in
  length r.1.1 = length grps ∧
  sum_list (length <$> r.1.1) + length r.1.2
  = sum_list (length <$> grps) + length gl + length ps.
Proof.
  induction ps as [|p ps IH]; intros i grps gl h Hlen; cbn [Iter].
  - simpl. split; [done|lia].
  - pose proof (route_part_count g msg i p grps gl h Hlen) as [Hl Hs].
    destruct (route_part g msg i p (grps, gl, h)) as [[grps1 gl1] h1].
    simpl in *.
    destruct (IH (S i) grps1 gl1 h1) as [Hl' Hs']; [congruence|].
    simpl in *. split; [congruence|]. rewrite Hs'. lia.
Qed.

Lemma sum_lengths_replicate_nil n :
  sum_list (length <$> replicate n message_New_nil) = 0.
Proof. induction n as [|n IH]; [done|]. csimpl. by rewrite IH. Qed.

Lemma partition_counts (g : GroupBy) (msg : Message) (h : heap) :
  let r := partition g msg h in
  length r.1.1 = length (groups g) ∧
  sum_list (length <$> r.1.1) + length r.1.2 = length msg.
Proof.
  unfold partition.
  pose proof (Iter_route_count g msg msg 0
    (replicate (length (groups g)) message_New_nil) message_New_nil h) as H.
  rewrite length_replicate in H. specialize (H eq_refl).
  rewrite sum_lengths_replicate_nil in H. simpl in *.
  destruct H as [H1 H2]. split; [done|]. rewrite H2. done.
Qed.

(** The parts routed are pairwise distinct: no duplicate is in two
    batches, or twice in one. *)
Lemma concat_alter_Append (grps : list Message) j c :
  j < length grps →
  concat (alter (λ m, Append m c) j grps) ≡ₚ c :: concat grps.
Proof.
  revert j. induction grps as [|m grps IH]; intros j Hj; simpl in Hj; [lia|].
  destruct j as [|j]; csimpl.
  - unfold Append. rewrite <- app_assoc. simpl.
    by rewrite <- Permutation_middle.
  - specialize (IH j ltac:(lia)). csimpl in IH. rewrite IH.
    by rewrite <- Permutation_middle.
Qed.

Lemma route_part_distinct g msg i p grps gl h :
  length grps = length (groups g) →
  NoDup (concat grps ++ gl) →
  (∀ l, l ∈ concat grps ++ gl → l ∈ dom h) →
  let r := route_part g msg i p (grps, gl, h) in
  NoDup (concat r.1.1 ++ r.1.2) ∧
  (∀ l, l ∈ concat r.1.1 ++ r.1.2 → l ∈ dom r.2).
Proof.
  intros Hlen Hnd Hdom. unfold route_part, Part_Copy.
  assert (fresh (dom h) ∉ concat grps ++ gl) as Hfresh.
  { intros Hin. apply (is_fresh (dom h)). by apply Hdom. }
  destruct (check_groups _ _ _) as [j|] eqn:Hj; cbn [fst snd].
  - apply check_groups_first_match, first_match_lt in Hj.
    pose proof (concat_alter_Append grps j (fresh (dom h)) ltac:(lia))
      as Hperm.
    split.
    + rewrite Hperm. simpl. by constructor.
    + intros l Hl. rewrite Hperm in Hl. rewrite dom_insert_L.
      simpl in Hl. apply elem_of_cons in Hl as [->|Hl]; [set_solver|].
      specialize (Hdom l Hl). set_solver.
  - unfold Append. rewrite app_assoc. split.
    + apply NoDup_app. split; [done|]. split; [|apply NoDup_singleton].
      intros l Hl Heq%list_elem_of_singleton. by subst l.
    + intros l. rewrite dom_insert_L.
      intros [Hl|Heq%list_elem_of_singleton]%elem_of_app.
      * specialize (Hdom l Hl). set_solver.
      * set_solver.
Qed.

Lemma Iter_route_distinct g msg ps : ∀ i grps gl h,
  length grps = length (groups g) →
  NoDup (concat grps ++ gl) →
  (∀ l, l ∈ concat grps ++ gl → l ∈ dom h) →
  let r := Iter (route_part g msg) i ps (grps, gl, h) in
  NoDup (concat r.1.1 ++ r.1.2).
Proof.
  induction ps as [|p ps IH]; intros i grps gl h Hlen Hnd Hdom; cbn [Iter].
  - done.
  - pose proof (route_part_count g msg i p grps gl h Hlen) as [Hl _].
    pose proof (route_part_distinct g msg i p grps gl h Hlen Hnd Hdom)
      as [Hnd1 Hdom1].
    destruct (route_part g msg i p (grps, gl, h)) as [[grps1 gl1] h1].
    cbn [fst snd] in *. apply IH; [congruence|done|done].
Qed.

Lemma concat_replicate_nil n : concat (replicate n message_New_nil) = [].
Proof. induction n as [|n IH]; [done|]. csimpl. by rewrite IH. Qed.

Lemma partition_distinct (g : GroupBy) (msg : Message) (h : heap) :
  NoDup (concat (partition g msg h).1.1 ++ (partition g msg h).1.2).
Proof.
  unfold partition. apply Iter_route_distinct.
  - by rewrite length_replicate.
  - rewrite concat_replicate_nil. constructor.
  - rewrite concat_replicate_nil. by intros l ?%elem_of_nil.
Qed.

(** C1. Conservation: for every configuration and every input batch, the
    partition allocates one working batch per configured group; the part
    counts of all the working batches plus that of the batch of the parts of
    no group add up to the part count of the input batch; and the parts of
    all these batches are pairwise distinct, so that none is in two
    destinations. *)
Theorem partition_conservation (g : GroupBy) (msg : Message) (h : heap) :
  let r := partition g msg h in
  length r.1.1 = length (groups g) ∧
  sum_list (length <$> r.1.1) + length r.1.2 = length msg ∧
  NoDup (concat r.1.1 ++ r.1.2).
Proof.
  cbv zeta. destruct (partition_counts g msg h) as [H1 H2].
  split; [done|]. split; [done|]. apply partition_distinct.
Qed.

(** ** The store under duplication *)

Lemma heap_get_insert_ne (h : heap) c x l :
  l ≠ c → heap_get (<[c:=x]> h) l = heap_get h l.
Proof. intros Hne. unfold heap_get. by rewrite lookup_insert_ne. Qed.

Lemma heap_get_insert_eq (h : heap) c x : heap_get (<[c:=x]> h) c = x.
Proof. unfold heap_get. by rewrite lookup_insert_eq. Qed.

Lemma fresh_not_allocated (h : heap) msg :
  allocated h msg → fresh (dom h) ∉ msg.
Proof. intros Ha Hin. apply (is_fresh (dom h)). by apply Ha. Qed.

Lemma contents_insert_fresh (h : heap) msg x :
  allocated h msg →
  contents (<[fresh (dom h):=x]> h) msg = contents h msg.
Proof.
  intros Ha. unfold contents. apply list_fmap_ext. intros i l Hl.
  apply heap_get_insert_ne. intros ->.
  apply (fresh_not_allocated h msg Ha). by eapply list_elem_of_lookup_2.
Qed.

Lemma allocated_insert (h : heap) msg c x :
  allocated h msg → allocated (<[c:=x]> h) msg.
Proof.
  intros Ha l Hl. rewrite dom_insert_L. specialize (Ha l Hl). set_solver.
Qed.

Lemma allocated_cons (h : heap) p ps :
  allocated h (p :: ps) ↔ p ∈ dom h ∧ allocated h ps.
Proof.
  unfold allocated. split.
  - intros Ha. split; [apply Ha; left|]. intros l Hl. apply Ha. by right.
  - intros [Hp Ha] l Hl. apply elem_of_cons in Hl as [->|Hl]; auto.
Qed.

Lemma Message_Copy_length ps : ∀ h, length (Message_Copy ps h).1 = length ps.
Proof.
  induction ps as [|p ps IH]; intros h; simpl; [done|].
  specialize (IH (<[fresh (dom h):=heap_get h p]> h)).
  destruct (Message_Copy ps _) as [cs h2]. simpl in *. by rewrite IH.
Qed.

(** Duplication only allocates: what was in the store stays as it was. *)
Lemma Message_Copy_frame ps : ∀ h l,
  l ∈ dom h → (Message_Copy ps h).2 !! l = h !! l.
Proof.
  induction ps as [|p ps IH]; intros h l Hl; simpl; [done|].
  specialize (IH (<[fresh (dom h):=heap_get h p]> h) l).
  destruct (Message_Copy ps _) as [cs h2]. simpl in *.
  rewrite IH by (rewrite dom_insert_L; set_solver).
  apply lookup_insert_ne. intros <-. by apply (is_fresh (dom h)).
Qed.

Lemma Message_Copy_dom ps : ∀ h,
  dom (Message_Copy ps h).2 = dom h ∪ list_to_set (Message_Copy ps h).1.
Proof.
  induction ps as [|p ps IH]; intros h; simpl; [set_solver|].
  specialize (IH (<[fresh (dom h):=heap_get h p]> h)).
  destruct (Message_Copy ps _) as [cs h2]. simpl in *.
  rewrite IH, dom_insert_L. set_solver.
Qed.

(** The duplicates are new parts. *)
Lemma Message_Copy_fresh ps : ∀ h c,
  c ∈ (Message_Copy ps h).1 → c ∉ dom h.
Proof.
  induction ps as [|p ps IH]; intros h c; simpl; [by intros ?%elem_of_nil|].
  specialize (IH (<[fresh (dom h):=heap_get h p]> h) c).
  destruct (Message_Copy ps _) as [cs h2]. simpl in *.
  intros [->|Hin]%elem_of_cons; [apply is_fresh|].
  specialize (IH Hin). rewrite dom_insert_L in IH. set_solver.
Qed.

(** The duplicates are pairwise distinct. *)
Lemma Message_Copy_NoDup ps : ∀ h, NoDup (Message_Copy ps h).1.
Proof.
  induction ps as [|p ps IH]; intros h; simpl; [constructor|].
  pose proof (Message_Copy_fresh ps (<[fresh (dom h):=heap_get h p]> h)) as Hf.
  specialize (IH (<[fresh (dom h):=heap_get h p]> h)).
  destruct (Message_Copy ps _) as [cs h2]. simpl in *.
  constructor; [|done]. intros Hin. apply (Hf _ Hin).
  rewrite dom_insert_L. set_solver.
Qed.

(** Each duplicate has the payload and the metadata of its original. *)
Lemma Message_Copy_contents ps : ∀ h,
  allocated h ps →
  contents (Message_Copy ps h).2 (Message_Copy ps h).1 = contents h ps.
Proof.
  induction ps as [|p ps IH]; intros h Ha; simpl; [done|].
  apply allocated_cons in Ha as [Hp Ha].
  pose proof (Message_Copy_frame ps (<[fresh (dom h):=heap_get h p]> h)
                (fresh (dom h))) as Hfr.
  specialize (IH (<[fresh (dom h):=heap_get h p]> h)
                 (allocated_insert _ _ _ _ Ha)).
  destruct (Message_Copy ps _) as [cs h2]. simpl in *.
  unfold contents in *. csimpl. f_equal.
  - unfold heap_get at 1. rewrite Hfr by (rewrite dom_insert_L; set_solver).
    by rewrite lookup_insert_eq.
  - rewrite IH. by apply (contents_insert_fresh h ps).
Qed.

(** ** The partition is the first-match selection of the duplicates *)

Lemma assigned_sublist dst d cs : ∀ i, sublist (assigned dst d i cs) cs.
Proof.
  induction cs as [|c cs IH]; intros i; simpl; [constructor|].
  case_decide; [by apply sublist_skip|by apply sublist_cons].
Qed.

Lemma elem_of_assigned dst d cs : ∀ i c,
  c ∈ assigned dst d i cs ↔ ∃ n, cs !! n = Some c ∧ dst (i + n) = d.
Proof.
  induction cs as [|c0 cs IH]; intros i c; simpl.
  - split; [by intros ?%elem_of_nil|]. by intros (n & Hn & _).
  - transitivity (c = c0 ∧ dst i = d ∨ c ∈ assigned dst d (S i) cs).
    { case_decide; rewrite ?elem_of_cons; naive_solver. }
    rewrite IH. split.
    + intros [[-> Hd]|(n & Hn & Hd)].
      * exists 0. by rewrite Nat.add_0_r.
      * exists (S n). split; [done|]. by rewrite Nat.add_succ_r.
    + intros ([|n] & Hn & Hd); simpl in Hn.
      * left. rewrite Nat.add_0_r in Hd. by injection Hn as ->.
      * right. exists n. split; [done|]. by rewrite Nat.add_succ_r in Hd.
Qed.

Lemma imap_alter_Append dst (grps : list Message) j c cs i :
  j < length grps → dst i = Some j →
  imap (λ k m, m ++ assigned dst (Some k) (S i) cs)
       (alter (λ m, Append m c) j grps)
  = imap (λ k m, m ++ assigned dst (Some k) i (c :: cs)) grps.
Proof.
  intros Hj Hd. apply list_eq. intros k.
  rewrite !list_lookup_imap. simpl.
  destruct (decide (j = k)) as [->|Hne].
  - rewrite list_lookup_alter_eq. destruct (grps !! k) as [m|]; [|done].
    simpl. rewrite decide_True by done. unfold Append.
    by rewrite <- app_assoc.
  - rewrite list_lookup_alter_ne by done.
    destruct (grps !! k) as [m|]; [|done]. simpl.
    rewrite decide_False by congruence. done.
Qed.

Lemma imap_assigned_skip dst (grps : list Message) c cs i :
  dst i = None →
  imap (λ k m, m ++ assigned dst (Some k) (S i) cs) grps
  = imap (λ k m, m ++ assigned dst (Some k) i (c :: cs)) grps.
Proof.
  intros Hd. apply imap_ext. intros k m _. simpl.
  rewrite decide_False by congruence. done.
Qed.

Lemma Iter_route_char g msg h0 ps : ∀ i grps gl h,
  allocated h msg → contents h msg = contents h0 msg →
  length grps = length (groups g) →
  Iter (route_part g msg) i ps (grps, gl, h)
  = (imap (λ k m, m ++ assigned (destination g h0 msg) (Some k) i
                         (Message_Copy ps h).1) grps,
     gl ++ assigned (destination g h0 msg) None i (Message_Copy ps h).1,
     (Message_Copy ps h).2).
Proof.
  induction ps as [|p ps IH]; intros i grps gl h Ha Hc Hlen; cbn [Iter].
  - simpl. rewrite app_nil_r. f_equal. f_equal.
    rewrite <- (imap_ext (λ _ m, m) _ grps).
    + clear. induction grps; [done|]. csimpl. f_equal.
      rewrite (imap_ext _ (λ _ m, m)); [|done]. done.
    + intros k m _. simpl. by rewrite app_nil_r.
  - unfold route_part at 2.
    assert (Lock h msg i = Lock h0 msg i) as -> by (unfold Lock; by rewrite Hc).
    fold (destination g h0 msg i). unfold Part_Copy. cbn [Message_Copy].
    unfold Part_Copy.
    pose proof (contents_insert_fresh h msg (heap_get h p) Ha) as Hc1.
    pose proof (allocated_insert h msg (fresh (dom h)) (heap_get h p) Ha)
      as Ha1.
    destruct (destination g h0 msg i) as [j|] eqn:Hd.
    + rewrite IH; [|done|congruence|by rewrite length_alter].
      destruct (Message_Copy ps _) as [cs h2]. cbn [fst snd].
      f_equal. f_equal.
      * apply imap_alter_Append; [|done].
        apply check_groups_first_match, first_match_lt in Hd. lia.
      * simpl. by rewrite decide_False by congruence.
    + rewrite IH; [|done|congruence|done].
      destruct (Message_Copy ps _) as [cs h2]. cbn [fst snd].
      f_equal. f_equal.
      * by apply imap_assigned_skip.
      * simpl. rewrite decide_True by done. unfold Append.
        by rewrite <- app_assoc.
Qed.

(** The working batch of every group and the batch of the parts of no
    group, in terms of the duplicates of the input. *)
Lemma partition_char g msg h :
  allocated h msg →
  partition g msg h
  = (imap (λ k _, assigned (destination g h msg) (Some k) 0
                    (Message_Copy msg h).1) (groups g),
     assigned (destination g h msg) None 0 (Message_Copy msg h).1,
     (Message_Copy msg h).2).
Proof.
  intros Ha. unfold partition.
  rewrite (Iter_route_char g msg h); [|done|done|by rewrite length_replicate].
  f_equal. f_equal. apply list_eq. intros k.
  rewrite !list_lookup_imap.
  destruct (decide (k < length (groups g))) as [Hk|Hk].
  - rewrite (lookup_replicate_2 _ _ _ Hk).
    destruct (lookup_lt_is_Some_2 (groups g) k Hk) as [grp ->]. done.
  - rewrite !lookup_ge_None_2; [done|lia|rewrite length_replicate; lia].
Qed.

Lemma elem_of_assigned_NoDup dst d cs i c :
  NoDup cs → cs !! i = Some c →
  c ∈ assigned dst d 0 cs ↔ dst i = d.
Proof.
  intros Hnd Hi. rewrite elem_of_assigned. simpl. split.
  - intros (n & Hn & Hd). by rewrite (NoDup_lookup cs i n c Hnd Hi Hn).
  - intros Hd. by exists i.
Qed.

Lemma in_group_partition g msg h i c k :
  allocated h msg → (Message_Copy msg h).1 !! i = Some c →
  in_group (partition g msg h).1.1 k c ↔ destination g h msg i = Some k.
Proof.
  intros Ha Hi. rewrite (partition_char g msg h Ha). simpl.
  unfold in_group. setoid_rewrite list_lookup_imap. split.
  - intros (m & Hm & Hc). destruct (groups g !! k) as [grp|]; [|done].
    simpl in Hm. injection Hm as <-.
    by apply (elem_of_assigned_NoDup _ _ _ i c (Message_Copy_NoDup msg h) Hi).
  - intros Hd. pose proof Hd as Hk.
    apply check_groups_first_match, first_match_lt in Hk.
    destruct (lookup_lt_is_Some_2 (groups g) k Hk) as [grp ->].
    eexists. split; [done|].
    by apply (elem_of_assigned_NoDup _ _ _ i c (Message_Copy_NoDup msg h) Hi).
Qed.

Lemma in_groupless_partition g msg h i c :
  allocated h msg → (Message_Copy msg h).1 !! i = Some c →
  c ∈ (partition g msg h).1.2 ↔ destination g h msg i = None.
Proof.
  intros Ha Hi. rewrite (partition_char g msg h Ha). simpl.
  by apply (elem_of_assigned_NoDup _ _ _ i c (Message_Copy_NoDup msg h) Hi).
Qed.

(** C2. First-match priority. Let [c] be the duplicate of part [i] of an
    allocated input batch. It is in the working batch of group [k] exactly
    when [k] is the first group whose condition passes on part [i]; it is in
    the batch of the parts of no group exactly when no condition passes;
    when the conditions of groups [a < b] both pass, it is in the working
    batch of [a] or of an earlier group, never in that of [b]; and it is
    never in both a working batch and the batch of the parts of no group. *)
Theorem first_match_priority (g : GroupBy) (msg : Message) (h : heap)
    (i : nat) (c : loc) :
  allocated h msg →
  (Message_Copy msg h).1 !! i = Some c →
  let r := partition g msg h in
  let lm := Lock h msg i in
  (∀ k, in_group r.1.1 k c ↔ first_match (groups g) lm k) ∧
  (c ∈ r.1.2 ↔ no_match (groups g) lm) ∧
  (∀ a b ga gb, a < b →
     groups g !! a = Some ga → groups g !! b = Some gb →
     Condition ga lm = true → Condition gb lm = true →
     ¬ in_group r.1.1 b c ∧ ∃ k, k ≤ a ∧ in_group r.1.1 k c) ∧
  (∀ k, in_group r.1.1 k c → c ∉ r.1.2).
Proof.
  intros Ha Hi r lm. subst r. generalize (eq_refl lm). unfold lm at 2.
  generalize lm. clear lm. intros lm Hlm.
  assert (∀ k, in_group (partition g msg h).1.1 k c
               ↔ first_match (groups g) lm k) as Hfirst.
  { intros k. rewrite (in_group_partition g msg h i c k Ha Hi).
    subst lm. apply check_groups_first_match. }
  assert (c ∈ (partition g msg h).1.2 ↔ no_match (groups g) lm) as Hnone.
  { rewrite (in_groupless_partition g msg h i c Ha Hi).
    subst lm. apply check_groups_None. }
  split; [done|]. split; [done|]. split.
  - intros a b ga gb Hab Hla Hlb Hca Hcb. split.
    + rewrite Hfirst. intros [_ Hmin].
      specialize (Hmin a ga Hab Hla). congruence.
    + destruct (destination g h msg i) as [k|] eqn:Hd.
      * exists k. apply check_groups_first_match in Hd as Hk.
        fold (Lock h msg i) in Hk. rewrite <- Hlm in Hk.
        split; [|by apply Hfirst].
        destruct (decide (k ≤ a)) as [|Hgt]; [done|].
        destruct Hk as [_ Hmin]. specialize (Hmin a ga ltac:(lia) Hla).
        congruence.
      * apply check_groups_None in Hd. specialize (Hd a ga Hla).
        rewrite <- Hlm in Hd. congruence.
  - intros k Hk. rewrite Hnone. apply Hfirst in Hk as [(grp & Hl & Hc) _].
    intros Hno. specialize (Hno k grp Hl). congruence.
Qed.

(** C3. Order preservation. The duplicates of the parts of an allocated
    input batch, taken in input order: are pairwise distinct; carry, position
    by position, the payload and the metadata of the input parts; and every
    working batch, as well as the batch of the parts of no group, is a
    subsequence of them, so its parts are in the relative order the input
    had them. *)
Theorem order_preservation (g : GroupBy) (msg : Message) (h : heap)
    (b : Message) :
  allocated h msg →
  let r := partition g msg h in
  let cs := (Message_Copy msg h).1 in
  b ∈ r.1.1 ∨ b = r.1.2 →
  NoDup cs ∧
  contents r.2 cs = contents h msg ∧
  sublist b cs ∧
  sublist (contents r.2 b) (contents h msg).
Proof.
  intros Ha r cs Hb. subst r cs.
  rewrite (partition_char g msg h Ha) in *. simpl in *.
  assert (sublist b (Message_Copy msg h).1) as Hsub.
  { destruct Hb as [Hb| ->]; [|apply assigned_sublist].
    apply list_elem_of_lookup in Hb as [k Hk].
    rewrite list_lookup_imap in Hk.
    destruct (groups g !! k); [|done]. injection Hk as <-.
    apply assigned_sublist. }
  split; [apply Message_Copy_NoDup|].
  split; [by apply Message_Copy_contents|].
  split; [done|].
  rewrite <- (Message_Copy_contents msg h Ha).
  unfold contents. by apply fmap_sublist.
Qed.

(** ** The chain of a group is a fold over its stages *)

Lemma apply_stage_stage_over proc ws : ∀ next res h,
  (apply_stage proc ws next res h).1.1 = next ++ (stage_over proc ws h).1 ∧
  (apply_stage proc ws next res h).2 = (stage_over proc ws h).2.
Proof.
  induction ws as [|m ws IH]; intros next res h; simpl.
  - by rewrite app_nil_r.
  - destruct (proc m h) as [[outs res'] h1].
    specialize (IH (next ++ outs) res' h1).
    destruct (stage_over proc ws h1) as [rest h2]. simpl in *.
    destruct IH as [-> ->]. by rewrite app_assoc.
Qed.

(** Once the working set is empty, no later stage changes anything. *)
Lemma chain_step_empty procs h :
  fold_left chain_step procs ([], h) = ([], h).
Proof. induction procs as [|proc procs IH]; simpl; [done|]. apply IH. Qed.

Lemma run_stages_fold procs : ∀ ws res h,
  (run_stages procs ws res h).1.1 = (fold_left chain_step procs (ws, h)).1 ∧
  (run_stages procs ws res h).2 = (fold_left chain_step procs (ws, h)).2.
Proof.
  induction procs as [|proc procs IH]; intros ws res h; [done|].
  cbn [run_stages fold_left]. destruct ws as [|m ws].
  - rewrite bool_decide_false by (simpl; lia).
    change (chain_step ([], h) proc) with (@nil Message, h).
    by rewrite (chain_step_empty procs h).
  - rewrite bool_decide_true by (simpl; lia).
    pose proof (apply_stage_stage_over proc (m :: ws) [] res h) as [H1 H2].
    destruct (apply_stage proc (m :: ws) [] res h) as [[next res'] h'].
    cbn [fst snd] in H1, H2. rewrite app_nil_l in H1. subst next h'.
    change (chain_step (m :: ws, h) proc) with (stage_over proc (m :: ws) h).
    destruct (stage_over proc (m :: ws) h) as [ws1 h1]. apply IH.
Qed.

Lemma process_group_chain_fold g i grp gmsg msgs h log :
  groups g !! i = Some grp → gmsg ≠ [] →
  let r := process_group g i gmsg (msgs, h, log) in
  r.1.1 = msgs ++ (chain_fold (Processors grp) gmsg h).1 ∧
  r.1.2 = (chain_fold (Processors grp) gmsg h).2.
Proof.
  intros Hi Hne. unfold process_group, group_processors, chain_fold.
  rewrite Hi. rewrite bool_decide_false by (by destruct gmsg).
  pose proof (run_stages_fold (Processors grp) [gmsg] None h) as [H1 H2].
  destruct (run_stages (Processors grp) [gmsg] None h) as [[rs res] h'].
  simpl in *. subst h'. split; [|done]. rewrite <- H1.
  case_bool_decide as Hlen; [done|].
  destruct rs; simpl in Hlen; [by rewrite app_nil_r|lia].
Qed.

Lemma process_group_empty g i msgs h log :
  process_group g i [] (msgs, h, log) = (msgs, h, log).
Proof. done. Qed.

Lemma process_groups_run g grps : ∀ gs i msgs h log,
  length grps ≤ length gs → drop i (groups g) = gs →
  let r := process_groups g i grps (msgs, h, log) in
  (r.1.1, r.1.2)
  = fold_left
      (λ (st : list Message * heap) (x : group * Message),
         let '(outs, h') := chain_fold (Processors x.1) x.2 st.2 in
         (st.1 ++ outs, h'))
      (filter (λ x : group * Message, x.2 ≠ []) (zip gs grps))
      (msgs, h).
Proof.
  induction grps as [|gmsg grps IH]; intros gs i msgs h log Hlen Hdrop.
  - by destruct gs.
  - destruct gs as [|grp gs]; [simpl in Hlen; lia|].
    assert (groups g !! i = Some grp) as Hi.
    { rewrite <- (Nat.add_0_r i), <- lookup_drop, Hdrop. done. }
    assert (drop (S i) (groups g) = gs) as Hdrop'.
    { replace (S i) with (i + 1) by lia. by rewrite <- drop_drop, Hdrop. }
    cbn [process_groups zip zip_with]. rewrite filter_cons. cbn [snd].
    destruct (decide (gmsg ≠ [])) as [Hne|He].
    + pose proof (process_group_chain_fold g i grp gmsg msgs h log Hi Hne)
        as [H1 H2].
      destruct (process_group g i gmsg (msgs, h, log)) as [[msgs1 h1] log1].
      simpl in H1, H2. subst msgs1 h1.
      rewrite (IH gs (S i)); [|simpl in Hlen; lia|done].
      cbn [fold_left]. cbv beta. cbn [fst snd].
      by destruct (chain_fold (Processors grp) gmsg h) as [outs h'] eqn:E.
    + assert (gmsg = []) as ->.
      { destruct gmsg; [done|]. exfalso. by apply He. }
      rewrite process_group_empty.
      apply (IH gs (S i)); [simpl in Hlen; lia|done].
Qed.

(** ** What an invocation returns *)

Lemma residual_length groupless :
  (if bool_decide (0 < length groupless) then [groupless] else [])
  = residual groupless.
Proof. by destruct groupless. Qed.

(** The batches collected are those the chains leave, in group order, then
    the batch of the parts of no group; the store is the one the chains
    leave. *)
Lemma collect_char g msg h :
  (collect g msg h).1.1
  = (run_chains (groups g) (partition g msg h).1.1 (partition g msg h).2).1
    ++ residual (partition g msg h).1.2 ∧
  (collect g msg h).1.2
  = (run_chains (groups g) (partition g msg h).1.1 (partition g msg h).2).2.
Proof.
  unfold collect, run_chains.
  pose proof (partition_counts g msg h) as [Hlen _].
  destruct (partition g msg h) as [[grps gl] h1]. cbn [fst snd] in *.
  pose proof (process_groups_run g grps (groups g) 0 [] h1 []) as Hrun.
  rewrite Hlen in Hrun. specialize (Hrun (le_n _) eq_refl).
  cbv zeta in Hrun. rewrite <- Hrun.
  destruct (process_groups g 0 grps ([], h1, [])) as [[msgs h2] log].
  rewrite <- residual_length.
  case_bool_decide; cbn [fst snd]; [done|]. by rewrite app_nil_r.
Qed.

Lemma process_groups_replicate_nil g n : ∀ i st,
  process_groups g i (replicate n message_New_nil) st = st.
Proof.
  induction n as [|n IH]; intros i st; simpl; [done|].
  rewrite IH. by destruct st as [[msgs h] log].
Qed.

Lemma collect_nil g h : collect g [] h = ([], h, []).
Proof.
  unfold collect, partition. cbn [Iter].
  by rewrite process_groups_replicate_nil.
Qed.

Lemma ProcessMessage_msgs g msg h :
  out_msgs (ProcessMessage g msg h) = (collect g msg h).1.1.
Proof.
  unfold ProcessMessage. case_bool_decide as Hmsg.
  - destruct msg; [|done]. by rewrite collect_nil.
  - destruct (collect g msg h) as [[msgs h2] log]. cbn [fst snd].
    case_bool_decide as Hlen; [|done]. by destruct msgs.
Qed.

Lemma ProcessMessage_heap g msg h :
  out_heap (ProcessMessage g msg h) = (collect g msg h).1.2.
Proof.
  unfold ProcessMessage. case_bool_decide as Hmsg.
  - destruct msg; [|done]. by rewrite collect_nil.
  - destruct (collect g msg h) as [[msgs h2] log]. cbn [fst snd].
    by case_bool_decide.
Qed.

Lemma ProcessMessage_res g msg h :
  out_res (ProcessMessage g msg h)
  = if bool_decide (length msg = 0 ∨ (collect g msg h).1.1 = [])
    then Some NewAck else None.
Proof.
  unfold ProcessMessage. case_bool_decide as Hmsg.
  - rewrite bool_decide_true by (by left). done.
  - destruct (collect g msg h) as [[msgs h2] log]. cbn [fst snd].
    case_bool_decide as Hlen.
    + rewrite bool_decide_true; [done|]. right. by destruct msgs.
    + rewrite bool_decide_false; [done|]. intros [?| ->]; done.
Qed.

(** C4. Nothing to forward. An invocation answers with the acknowledgement
    [NewAck], which carries no error, and with no batch, exactly when the
    input batch has no part or the collection of the group outputs and of
    the batch of the parts of no group is empty; in every other case it
    answers with that collection and the nil response of success. *)
Theorem nothing_to_forward (g : GroupBy) (msg : Message) (h : heap) :
  let o := ProcessMessage g msg h in
  let nothing := bool_decide (length msg = 0 ∨ (collect g msg h).1.1 = []) in
  out_res o = (if nothing then Some NewAck else None) ∧
  out_msgs o = (if nothing then [] else (collect g msg h).1.1) ∧
  Error NewAck = None.
Proof.
  cbv zeta. split; [apply ProcessMessage_res|]. split; [|done].
  rewrite ProcessMessage_msgs. case_bool_decide as Hn; [|done].
  destruct Hn as [Hn|Hn]; [|done].
  destruct msg; [|done]. by rewrite collect_nil.
Qed.

(** C5. Chain execution. The loop over the working batches runs exactly the
    chains of the groups whose working batch has parts, in group order
    ([run_chains] skips every empty working batch); the chain of a group
    is the fold of its stages over a working set that starts as the single
    group batch, each stage applied to every batch of the set and the
    batches produced concatenated; and from an empty working set on no stage
    is applied. *)
Theorem chain_execution (g : GroupBy) (msg : Message) (h : heap) :
  let p := partition g msg h in
  let r := process_groups g 0 p.1.1 ([], p.2, []) in
  (r.1.1, r.1.2) = run_chains (groups g) p.1.1 p.2 ∧
  (∀ procs gmsg res h',
     ((run_stages procs [gmsg] res h').1.1, (run_stages procs [gmsg] res h').2)
     = chain_fold procs gmsg h') ∧
  (∀ procs res h', run_stages procs [] res h' = (([], res), h')) ∧
  (∀ procs h', fold_left chain_step procs ([], h') = ([], h')).
Proof.
  cbv zeta. split; [|split; [|split]].
  - pose proof (partition_counts g msg h) as [Hlen _].
    apply (process_groups_run g _ (groups g) 0 [] _ []); [|done].
    by rewrite Hlen.
  - intros procs gmsg res h'. unfold chain_fold.
    destruct (run_stages_fold procs [gmsg] res h') as [-> ->].
    by destruct (fold_left chain_step procs ([gmsg], h')).
  - intros procs res h'. by destruct procs.
  - apply chain_step_empty.
Qed.

(** C6, as the code has it. The batches returned are, in group order, all
    the batches the chain of each group leaves, whether or not they still
    have parts, then, when it has parts, the batch of the parts of no group,
    as the partition built it; the store returned is the one the chains of
    the groups leave, no stage being run for the parts of no group. *)
Theorem output_collection (g : GroupBy) (msg : Message) (h : heap) :
  let p := partition g msg h in
  let o := ProcessMessage g msg h in
  out_msgs o = (run_chains (groups g) p.1.1 p.2).1 ++ residual p.1.2 ∧
  out_heap o = (run_chains (groups g) p.1.1 p.2).2.
Proof.
  cbv zeta. rewrite ProcessMessage_msgs, ProcessMessage_heap.
  apply collect_char.
Qed.

(** ** The responses of the stages *)

Lemma check_groups_silence gs lm : ∀ j,
  check_groups (silence_group <$> gs) j lm = check_groups gs j lm.
Proof.
  induction gs as [|grp gs IH]; intros j; csimpl; [done|].
  by rewrite IH.
Qed.

Lemma Iter_ext {S : Type} (f f' : nat → loc → S → S) ps :
  (∀ i p s, f i p s = f' i p s) →
  ∀ i s, Iter f i ps s = Iter f' i ps s.
Proof.
  intros Hf. induction ps as [|p ps IH]; intros i s; simpl; [done|].
  by rewrite Hf, IH.
Qed.

Lemma partition_silence g msg h :
  partition (silence_all g) msg h = partition g msg h.
Proof.
  unfold partition. cbn [silence_all groups]. rewrite length_fmap.
  apply Iter_ext. intros i p [[grps gl] h']. unfold route_part.
  cbn [silence_all groups]. by rewrite check_groups_silence.
Qed.

Lemma stage_over_silence proc ws : ∀ h,
  stage_over (silence proc) ws h = stage_over proc ws h.
Proof.
  induction ws as [|m ws IH]; intros h; simpl; [done|].
  unfold silence at 1. destruct (proc m h) as [[outs res] h1].
  by rewrite IH.
Qed.

Lemma chain_step_silence st proc :
  chain_step st (silence proc) = chain_step st proc.
Proof.
  unfold chain_step. destruct st.1; [done|]. apply stage_over_silence.
Qed.

Lemma chain_fold_silence procs gmsg h :
  chain_fold (silence <$> procs) gmsg h = chain_fold procs gmsg h.
Proof.
  unfold chain_fold. generalize ([gmsg], h).
  induction procs as [|proc procs IH]; intros st; csimpl; [done|].
  by rewrite chain_step_silence, IH.
Qed.

Lemma run_chains_silence gs grps h :
  run_chains (silence_group <$> gs) grps h = run_chains gs grps h.
Proof.
  unfold run_chains. generalize (@nil Message, h). revert grps.
  induction gs as [|grp gs IH]; intros grps st; [done|].
  destruct grps as [|gmsg grps]; [done|].
  csimpl. rewrite !filter_cons. cbn [snd].
  destruct (decide (gmsg ≠ [])); [|apply IH].
  cbn [fold_left fst snd silence_group Processors].
  rewrite chain_fold_silence. apply IH.
Qed.

Lemma collect_silence_msgs g msg h :
  (collect (silence_all g) msg h).1.1 = (collect g msg h).1.1 ∧
  (collect (silence_all g) msg h).1.2 = (collect g msg h).1.2.
Proof.
  destruct (collect_char g msg h) as [-> ->].
  destruct (collect_char (silence_all g) msg h) as [-> ->].
  rewrite partition_silence. cbn [silence_all groups].
  by rewrite run_chains_silence.
Qed.

(** C8. Stage errors are not fatal. For every configuration, whatever its
    stages answer, and for every input: the invocation returns either at
    least one batch with the nil response, or no batch with the
    acknowledgement [NewAck]; the response it returns never carries an
    error; and the batches, the response and the store it returns are those
    of the same configuration with every stage response replaced by nil, so
    that no stage response aborts the invocation or discards a batch. *)
Theorem stage_errors_not_fatal (g : GroupBy) (msg : Message) (h : heap) :
  let o := ProcessMessage g msg h in
  let o' := ProcessMessage (silence_all g) msg h in
  (out_res o = None ∧ out_msgs o ≠ [] ∨
   out_res o = Some NewAck ∧ out_msgs o = []) ∧
  (∀ r, out_res o = Some r → Error r = None) ∧
  out_msgs o = out_msgs o' ∧ out_res o = out_res o' ∧ out_heap o = out_heap o'.
Proof.
  cbv zeta.
  destruct (collect_silence_msgs g msg h) as [Hm Hh].
  rewrite !ProcessMessage_res, !ProcessMessage_msgs, !ProcessMessage_heap.
  rewrite Hm, Hh. split; [|split; [|done]].
  - case_bool_decide as Hn.
    + right. split; [done|]. destruct Hn as [Hn|Hn]; [|done].
      destruct msg; [|done]. by rewrite collect_nil.
    + left. split; [done|]. intros He. apply Hn. by right.
  - intros r. case_bool_decide; [|done]. by intros [= <-].
Qed.

(** ** The metadata operators *)

Lemma foldr_delete_lookup (P : string → bool) (l : list (string * string))
    (m : gmap string string) k :
  foldr (λ kv m', if P kv.1 then delete kv.1 m' else m') m l !! k
  = if bool_decide (k ∈ l.*1) && P k then None else m !! k.
Proof.
  induction l as [|[k0 v0] l IH]; csimpl; [done|].
  destruct (decide (k = k0)) as [->|Hne].
  - rewrite bool_decide_true by left. simpl.
    destruct (P k0) eqn:HP; [by rewrite lookup_delete_eq|].
    rewrite IH. by rewrite andb_false_r.
  - assert (bool_decide (k ∈ k0 :: l.*1) = bool_decide (k ∈ l.*1)) as ->.
    { apply bool_decide_ext. rewrite elem_of_cons. naive_solver. }
    destruct (P k0); [rewrite lookup_delete_ne by done|]; apply IH.
Qed.

Lemma Metadata_Iter_delete (P : string → bool) (m : gmap string string) :
  Metadata_Iter m (λ k _ m', if P k then delete k m' else m') m
  = filter (λ kv, P kv.1 = false) m.
Proof.
  unfold Metadata_Iter. apply map_eq. intros k.
  rewrite (foldr_delete_lookup P). apply option_eq. intros v.
  rewrite map_lookup_filter_Some. simpl.
  destruct (P k) eqn:HP.
  - rewrite andb_true_r. case_bool_decide as Hin.
    + naive_solver.
    + split; [|naive_solver]. intros Hm. exfalso. apply Hin.
      apply list_elem_of_fmap. exists (k, v). split; [done|].
      by apply elem_of_map_to_list.
  - rewrite andb_false_r. naive_solver.
Qed.

Lemma delete_all_empty (m : gmap string string) :
  Metadata_Iter m (λ k _ m', delete k m') m = ∅.
Proof.
  rewrite (Metadata_Iter_delete (λ _, true) m).
  apply map_eq. intros k. rewrite lookup_empty.
  apply map_lookup_filter_None. right. intros v _. done.
Qed.

(** The operator built for a recognised name does what the name says and
    reports no error. *)
Lemma getMetadataOperator_operation opStr key op :
  getMetadataOperator opStr key = inl op →
  ∀ m value, op m value = (operation opStr key value m, None).
Proof.
  unfold getMetadataOperator, operation.
  destruct (String.eqb opStr "set"); [by intros [= <-]|].
  destruct (String.eqb opStr "delete_all").
  { intros [= <-] m value. unfold newMetadataDeleteAllOperator.
    by rewrite delete_all_empty. }
  destruct (String.eqb opStr "delete_prefix"); [|done].
  intros [= <-] m value. unfold newMetadataDeletePrefixOperator.
  by rewrite (Metadata_Iter_delete (String.prefix value) m).
Qed.

Lemma getMetadataOperator_fails opStr key :
  (∃ err, getMetadataOperator opStr key = inr err)
  ↔ opStr ∉ ["set"; "delete_all"; "delete_prefix"].
Proof.
  unfold getMetadataOperator.
  rewrite !not_elem_of_cons.
  destruct (String.eqb_spec opStr "set") as [->|H1];
    [split; [by intros [? ?]|naive_solver]|].
  destruct (String.eqb_spec opStr "delete_all") as [->|H2];
    [split; [by intros [? ?]|naive_solver]|].
  destruct (String.eqb_spec opStr "delete_prefix") as [->|H3];
    [split; [by intros [? ?]|naive_solver]|].
  split; [|by eexists]. intros _. repeat split; try done.
  by intros ?%elem_of_nil.
Qed.

Lemma operation_idemp opStr key value (m : gmap string string) :
  operation opStr key value (operation opStr key value m)
  = operation opStr key value m.
Proof.
  unfold operation.
  destruct (String.eqb opStr "set"); [by rewrite insert_insert_eq|].
  destruct (String.eqb opStr "delete_all"); [done|].
  destruct (String.eqb opStr "delete_prefix"); [|done].
  apply map_eq. intros k. apply option_eq. intros v.
  rewrite !map_lookup_filter_Some. naive_solver.
Qed.

Lemma edited_idemp opStr key value p :
  edited opStr key value (edited opStr key value p)
  = edited opStr key value p.
Proof. unfold edited. simpl. by rewrite operation_idemp. Qed.

(** ** The metadata processor *)

Lemma resolve_index_lt n index k : resolve_index n index = Some k → k < n.
Proof.
  unfold resolve_index. case_bool_decide as Hr; [done|].
  intros [= <-]. case_bool_decide; lia.
Qed.

Lemma Message_Get_inside (m : Message) index h k :
  resolve_index (length m) index = Some k →
  ∃ l, m !! k = Some l ∧ Message_Get m index h = (l, h).
Proof.
  intros Hr. unfold Message_Get. rewrite Hr. simpl.
  destruct (lookup_lt_is_Some_2 m k (resolve_index_lt _ _ _ Hr)) as [l Hl].
  exists l. by rewrite Hl.
Qed.

Lemma Message_Get_outside (m : Message) index h :
  resolve_index (length m) index = None →
  Message_Get m index h = (fresh (dom h), <[fresh (dom h):=NewPart_nil]> h).
Proof. intros Hr. unfold Message_Get. by rewrite Hr. Qed.

Lemma allocated_lookup (h h' : heap) msg :
  allocated h msg → (∀ l, l ∈ msg → h' !! l = h !! l) → allocated h' msg.
Proof.
  intros Ha Heq l Hl. apply elem_of_dom. rewrite (Heq l Hl).
  apply elem_of_dom. by apply Ha.
Qed.

Section metadata_loop.
Context {text : Text}.
Variables (p : Metadata) (opStr key value : string) (newMsg : Message).
Hypothesis Hop :
  ∀ m v, operator p m v = (operation opStr key v m, None).
Hypothesis Hnodup : NoDup newMsg.

Lemma edit_target_inside h log index k l :
  resolve_index (length newMsg) index = Some k → newMsg !! k = Some l →
  edit_target p newMsg value (h, log) index
  = (<[l:=edited opStr key value (heap_get h l)]> h, log).
Proof.
  intros Hr Hl. unfold edit_target. cbn [fst snd].
  destruct (Message_Get_inside newMsg index h k Hr) as (l' & Hl' & ->).
  assert (l' = l) as -> by congruence.
  unfold apply_operator. by rewrite Hop.
Qed.

Lemma edit_target_outside h log index :
  resolve_index (length newMsg) index = None →
  edit_target p newMsg value (h, log) index
  = (<[fresh (dom h):=edited opStr key value NewPart_nil]> h, log).
Proof.
  intros Hr. unfold edit_target. cbn [fst snd].
  rewrite (Message_Get_outside newMsg index h Hr).
  unfold apply_operator. rewrite heap_get_insert_eq, Hop.
  by rewrite insert_insert_eq.
Qed.

(** The loop of lines 206-211: the parts it is asked to edit are edited,
    the other parts of the batch and of the store are left alone, and
    nothing is logged. *)
Lemma edit_loop indexes : ∀ h log,
  allocated h newMsg →
  let r := foldl (edit_target p newMsg value) (h, log) indexes in
  r.2 = log ∧
  (∀ l, l ∈ dom h → l ∉ newMsg → r.1 !! l = h !! l) ∧
  (∀ k c, newMsg !! k = Some c →
     heap_get r.1 c
     = if existsb (λ index,
            bool_decide (resolve_index (length newMsg) index = Some k))
            indexes
       then edited opStr key value (heap_get h c)
       else heap_get h c).
Proof.
  induction indexes as [|index indexes IH]; intros h log Ha; [done|].
  cbn [foldl existsb].
  destruct (resolve_index (length newMsg) index) as [k0|] eqn:Hr.
  - destruct (lookup_lt_is_Some_2 newMsg k0 (resolve_index_lt _ _ _ Hr))
      as [l0 Hl0].
    rewrite (edit_target_inside h log index k0 l0 Hr Hl0).
    assert (l0 ∈ dom h) as Hd0
      by (apply Ha; by eapply list_elem_of_lookup_2).
    destruct (IH (<[l0:=edited opStr key value (heap_get h l0)]> h) log)
      as (Hlog & Hframe & Hedit); [by apply allocated_insert|].
    split; [done|]. split.
    + intros l Hl Hnl. rewrite Hframe; [|rewrite dom_insert_L; set_solver|done].
      apply lookup_insert_ne. intros ->. apply Hnl.
      by eapply list_elem_of_lookup_2.
    + intros k c Hc. rewrite (Hedit k c Hc).
      destruct (decide (k = k0)) as [->|Hne].
      * assert (c = l0) as -> by congruence.
        rewrite bool_decide_true by done. rewrite heap_get_insert_eq.
        rewrite edited_idemp. by destruct (existsb _ _).
      * rewrite bool_decide_false by congruence.
        rewrite heap_get_insert_ne; [done|].
        intros ->. apply Hne. by eapply NoDup_lookup.
  - rewrite (edit_target_outside h log index Hr).
    pose proof (fresh_not_allocated h newMsg Ha) as Hfresh.
    destruct (IH (<[fresh (dom h):=edited opStr key value NewPart_nil]> h)
                 log)
      as (Hlog & Hframe & Hedit); [by apply allocated_insert|].
    split; [done|]. split.
    + intros l Hl Hnl. rewrite Hframe; [|rewrite dom_insert_L; set_solver|done].
      apply lookup_insert_ne. intros Heq. rewrite <- Heq in Hl.
      by apply (is_fresh (dom h)).
    + intros k c Hc. rewrite (Hedit k c Hc).
      rewrite bool_decide_false by done. simpl.
      rewrite heap_get_insert_ne; [done|].
      intros Heq. apply Hfresh. rewrite <- Heq.
      by eapply list_elem_of_lookup_2.
Qed.
End metadata_loop.

Lemma resolve_index_of_nat n k :
  k < n → resolve_index n (Z.of_nat k) = Some k.
Proof.
  intros Hk. unfold resolve_index.
  rewrite (bool_decide_false (Z.of_nat k < 0)%Z) by lia.
  rewrite bool_decide_false by lia. by rewrite Nat2Z.id.
Qed.

Lemma existsb_all_indexes n k :
  k < n →
  existsb (λ index, bool_decide (resolve_index n index = Some k))
    (Z.of_nat <$> seq 0 n) = true.
Proof.
  intros Hk. apply existsb_exists. exists (Z.of_nat k). split.
  - apply list_elem_of_In, list_elem_of_fmap. exists k. split; [done|].
    apply elem_of_seq. lia.
  - apply bool_decide_eq_true. by apply resolve_index_of_nat.
Qed.

Lemma contents_frame (h h' : heap) msg :
  allocated h msg → (∀ l, l ∈ dom h → h' !! l = h !! l) →
  contents h' msg = contents h msg.
Proof.
  intros Ha Hfr. apply list_fmap_ext. intros i l Hl. unfold heap_get.
  rewrite Hfr; [done|]. apply Ha. by eapply list_elem_of_lookup_2.
Qed.

Lemma contents_lookup (h h' : heap) (cs msg : Message) k c l :
  contents h' cs = contents h msg → cs !! k = Some c → msg !! k = Some l →
  heap_get h' c = heap_get h l.
Proof.
  intros Hc Hk Hl. apply (f_equal (λ x, x !! k)) in Hc.
  unfold contents in Hc. rewrite !list_lookup_fmap, Hk, Hl in Hc.
  by injection Hc.
Qed.

Section metadata_properties.
Context {text : Text}.

Lemma NewMetadata_inl conf p :
  NewMetadata conf = inl p →
  interpolate p = ContainsFunctionVariables (Value conf) ∧
  valueBytes p = Value conf ∧ parts p = Parts conf ∧
  ∀ m v, operator p m v = (operation (Operator conf) (Key conf) v m, None).
Proof.
  unfold NewMetadata.
  destruct (getMetadataOperator _ _) as [op|err] eqn:Hop; [|done].
  intros [= <-]. repeat split.
  by apply getMetadataOperator_operation.
Qed.

Lemma NewMetadata_fails conf :
  (∃ err, NewMetadata conf = inr err)
  ↔ Operator conf ∉ ["set"; "delete_all"; "delete_prefix"].
Proof.
  rewrite <- (getMetadataOperator_fails (Operator conf) (Key conf)).
  unfold NewMetadata.
  destruct (getMetadataOperator _ _) as [op|err]; [|by split; eexists].
  split; by intros [? ?].
Qed.

(** What an invocation of the metadata processor returns. *)
Lemma Metadata_ProcessMessage_char conf p msg h :
  NewMetadata conf = inl p → allocated h msg →
  let o := Metadata_ProcessMessage p msg h in
  let newMsg := (Message_Copy msg h).1 in
  let v := resolved_value conf (contents h msg) in
  out_msgs o = [newMsg] ∧ out_res o = None ∧ out_log o = [] ∧
  (∀ l, l ∈ dom h → out_heap o !! l = h !! l) ∧
  (∀ k l c, msg !! k = Some l → newMsg !! k = Some c →
     heap_get (out_heap o) c
     = if targeted (Parts conf) (length msg) k
       then edited (Operator conf) (Key conf) v (heap_get h l)
       else heap_get h l).
Proof.
  intros Hnew Ha. cbv zeta.
  destruct (NewMetadata_inl conf p Hnew) as (Hint & Hval & Hparts & Hop).
  unfold Metadata_ProcessMessage.
  pose proof (Message_Copy_length msg h) as Hlen.
  pose proof (Message_Copy_NoDup msg h) as Hnd.
  pose proof (Message_Copy_fresh msg h) as Hfresh.
  pose proof (Message_Copy_frame msg h) as Hframe.
  pose proof (Message_Copy_dom msg h) as Hdom.
  pose proof (Message_Copy_contents msg h Ha) as Hcont.
  destruct (Message_Copy msg h) as [newMsg h1]. cbn [fst snd] in *.
  rewrite (contents_frame h h1 msg Ha Hframe).
  rewrite Hint, Hval, Hparts. fold (resolved_value conf (contents h msg)).
  set (v := resolved_value conf (contents h msg)).
  set (indexes := if bool_decide (length (Parts conf) = 0)
                  then Z.of_nat <$> seq 0 (length newMsg) else Parts conf).
  assert (allocated h1 newMsg) as Ha1.
  { intros l Hl. rewrite Hdom. set_solver. }
  destruct (edit_loop p (Operator conf) (Key conf) v newMsg Hop Hnd
              indexes h1 [] Ha1) as (Hlog & Hfr & Hedit).
  destruct (foldl (edit_target p newMsg v) (h1, []) indexes) as [h2 log].
  cbn [fst snd out_msgs out_res out_log out_heap] in *.
  split; [done|]. split; [done|]. split; [done|]. split.
  - intros l Hl. rewrite Hfr, Hframe; [done|done| |].
    + apply elem_of_dom. rewrite Hframe by done. by apply elem_of_dom.
    + intros Hin. by apply (Hfresh l).
  - intros k l c Hl Hc. rewrite (Hedit k c Hc).
    rewrite (contents_lookup h h1 newMsg msg k c l Hcont Hc Hl).
    rewrite Hlen. unfold targeted, indexes.
    destruct (Parts conf) as [|i0 is0] eqn:HP.
    + rewrite bool_decide_true by done. simpl. rewrite Hlen.
      rewrite existsb_all_indexes; [done|]. by eapply lookup_lt_Some.
    + rewrite bool_decide_false by done.
      by rewrite (bool_decide_false (i0 :: is0 = [])).
Qed.

(** C9. The metadata stage. Built from a configuration whose operator
    name is recognised and run on an allocated batch, it returns exactly
    one batch, with as many parts as the input and the nil response, and
    logs no failure; part [k] of that batch is part [k] of the input with
    the configured operation applied to its metadata when [k] is in the
    index subset (every part when the subset is empty), and part [k] of
    the input as it is otherwise. Construction fails exactly when the
    operator name is not one of set, delete_all, delete_prefix. *)
Theorem metadata_stage (conf : MetadataConfig) (p : Metadata)
    (msg : Message) (h : heap) :
  NewMetadata conf = inl p → allocated h msg →
  let o := Metadata_ProcessMessage p msg h in
  let v := resolved_value conf (contents h msg) in
  (∃ newMsg, out_msgs o = [newMsg] ∧ length newMsg = length msg ∧
     ∀ k l, msg !! k = Some l →
       ∃ c, newMsg !! k = Some c ∧
         heap_get (out_heap o) c
         = if targeted (Parts conf) (length msg) k
           then edited (Operator conf) (Key conf) v (heap_get h l)
           else heap_get h l) ∧
  out_res o = None ∧ out_log o = [] ∧
  (∀ conf', (∃ err, NewMetadata conf' = inr err)
            ↔ Operator conf' ∉ ["set"; "delete_all"; "delete_prefix"]).
Proof.
  intros Hnew Ha.
  destruct (Metadata_ProcessMessage_char conf p msg h Hnew Ha)
    as (Hmsgs & Hres & Hlog & _ & Hedit).
  cbv zeta. split; [|split; [done|split; [done|apply NewMetadata_fails]]].
  exists (Message_Copy msg h).1. split; [done|].
  split; [apply Message_Copy_length|].
  intros k l Hl.
  destruct (lookup_lt_is_Some_2 (Message_Copy msg h).1 k) as [c Hc].
  { rewrite Message_Copy_length. by eapply lookup_lt_Some. }
  exists c. split; [done|]. by apply Hedit.
Qed.

(** C10. The metadata stage leaves its input alone. Run on an allocated
    batch, it changes no part that was in the store, so the input batch
    reads as before; the batch it returns is made of new parts; and with
    the set operator every part of the index subset gets, under the
    configured key, one and the same value: the configured value resolved
    against the input batch as it was before any edit. *)
Theorem metadata_input_unchanged (conf : MetadataConfig) (p : Metadata)
    (msg : Message) (h : heap) :
  NewMetadata conf = inl p → allocated h msg →
  let o := Metadata_ProcessMessage p msg h in
  let v := resolved_value conf (contents h msg) in
  (∀ l, l ∈ dom h → out_heap o !! l = h !! l) ∧
  contents (out_heap o) msg = contents h msg ∧
  (∀ newMsg c, newMsg ∈ out_msgs o → c ∈ newMsg → c ∉ dom h) ∧
  (Operator conf = "set" →
   ∀ newMsg k c, newMsg ∈ out_msgs o → newMsg !! k = Some c →
     targeted (Parts conf) (length msg) k = true →
     part_metadata (heap_get (out_heap o) c) !! Key conf = Some v).
Proof.
  intros Hnew Ha.
  destruct (Metadata_ProcessMessage_char conf p msg h Hnew Ha)
    as (Hmsgs & Hres & Hlog & Hframe & Hedit).
  cbv zeta. split; [done|]. split; [by apply contents_frame|]. split.
  - intros newMsg c. rewrite Hmsgs. intros ->%list_elem_of_singleton.
    apply Message_Copy_fresh.
  - intros Hset newMsg k c. rewrite Hmsgs.
    intros ->%list_elem_of_singleton Hc Ht.
    destruct (lookup_lt_is_Some_2 msg k) as [l Hl].
    { rewrite <- (Message_Copy_length msg h). by eapply lookup_lt_Some. }
    rewrite (Hedit k l c Hl Hc), Ht. unfold edited, operation.
    rewrite Hset. simpl. by rewrite lookup_insert_eq.
Qed.
End metadata_properties.

(** ** Local stages leave the rest of the store alone *)

Section protected.
(** The parts to protect: all of them are in the store, and none of them
    is handed to a stage. *)
Variable P : loc → Prop.

Lemma keeps_covers h h' : covers P h → keeps P h h' → covers P h'.
Proof.
  intros Hc Hk l Hl. apply elem_of_dom. rewrite (Hk l Hl).
  apply elem_of_dom. by apply Hc.
Qed.

Lemma keeps_trans h1 h2 h3 : keeps P h1 h2 → keeps P h2 h3 → keeps P h1 h3.
Proof. intros H12 H23 l Hl. by rewrite (H23 l Hl), (H12 l Hl). Qed.

Lemma avoids_cons m ws : avoids P (m :: ws) ↔ avoids P [m] ∧ avoids P ws.
Proof.
  unfold avoids. split.
  - intros Ha. split; intros m' l Hm'; apply Ha; [|by right].
    apply list_elem_of_singleton in Hm' as ->. left.
  - intros [H1 H2] m' l [->|Hm']%elem_of_cons; [apply H1; left|by apply H2].
Qed.

Lemma avoids_app ws1 ws2 : avoids P ws1 → avoids P ws2 → avoids P (ws1 ++ ws2).
Proof.
  intros H1 H2 m l [Hm|Hm]%elem_of_app; [by apply H1|by apply H2].
Qed.

Lemma local_call proc m h :
  local proc → covers P h → avoids P [m] →
  keeps P h (proc m h).2 ∧ avoids P (proc m h).1.1.
Proof.
  intros Hloc Hc Ha. destruct (Hloc m h) as [Hfr Hout]. split.
  - intros l Hl. apply Hfr; [by apply Hc|].
    intros Hin. by apply (Ha m l (list_elem_of_here _ _)).
  - intros m' l Hm' Hl HP.
    apply (Ha m l (list_elem_of_here _ _)); [|done].
    apply (Hout m' l Hm' Hl). by apply Hc.
Qed.

Lemma stage_over_protected proc ws :
  local proc → ∀ h, covers P h → avoids P ws →
  keeps P h (stage_over proc ws h).2 ∧ avoids P (stage_over proc ws h).1.
Proof.
  intros Hloc. induction ws as [|m ws IH]; intros h Hc Ha; simpl.
  - split; [done|]. by intros m l ?%elem_of_nil.
  - apply avoids_cons in Ha as [Ham Haws].
    destruct (local_call proc m h Hloc Hc Ham) as [Hk1 Ha1].
    destruct (proc m h) as [[outs res] h1]. cbn [fst snd] in *.
    destruct (IH h1 (keeps_covers h h1 Hc Hk1) Haws) as [Hk2 Ha2].
    destruct (stage_over proc ws h1) as [rest h2]. cbn [fst snd] in *.
    split; [by eapply keeps_trans|by apply avoids_app].
Qed.

Lemma chain_protected procs :
  (∀ proc, proc ∈ procs → local proc) →
  ∀ st, covers P st.2 → avoids P st.1 →
  keeps P st.2 (fold_left chain_step procs st).2 ∧
  avoids P (fold_left chain_step procs st).1.
Proof.
  induction procs as [|proc procs IH]; intros Hloc st Hc Ha; [done|].
  cbn [fold_left].
  assert (keeps P st.2 (chain_step st proc).2 ∧ avoids P (chain_step st proc).1)
    as [Hk1 Ha1].
  { unfold chain_step. destruct st as [[|m ws] h]; [done|].
    apply stage_over_protected; [|done|done]. apply Hloc. left. }
  destruct (IH (λ q Hq, Hloc q (list_elem_of_further _ _ _ Hq))
               (chain_step st proc) (keeps_covers _ _ Hc Hk1) Ha1)
    as [Hk2 Ha2].
  split; [by eapply keeps_trans|done].
Qed.

Lemma run_chains_protected gs : ∀ grps h,
  (∀ grp proc, grp ∈ gs → proc ∈ Processors grp → local proc) →
  covers P h → avoids P grps →
  keeps P h (run_chains gs grps h).2 ∧ avoids P (run_chains gs grps h).1.
Proof.
  unfold run_chains. intros grps h Hloc Hc Ha.
  assert (avoids P []) as Hnil by (by intros m l ?%elem_of_nil).
  revert Hnil. generalize (@nil Message).
  revert grps h Hloc Hc Ha.
  induction gs as [|grp gs IH]; intros grps h Hloc Hc Ha acc Hacc;
    [done|].
  destruct grps as [|gmsg grps]; [done|].
  cbn [zip zip_with]. rewrite filter_cons. cbn [snd].
  apply avoids_cons in Ha as [Hag Hagrps].
  assert (∀ grp' proc, grp' ∈ gs → proc ∈ Processors grp' → local proc)
    as Hloc' by (intros grp' proc Hg; apply Hloc; by right).
  destruct (decide (gmsg ≠ [])); [|by apply IH].
  cbn [fold_left fst snd].
  destruct (chain_protected (Processors grp)
              (λ q Hq, Hloc grp q (list_elem_of_here _ _) Hq)
              ([gmsg], h) Hc Hag) as [Hk1 Ha1].
  fold (chain_fold (Processors grp) gmsg h) in Hk1, Ha1.
  destruct (chain_fold (Processors grp) gmsg h) as [outs h1].
  cbn [fst snd] in *.
  destruct (IH grps h1 Hloc' (keeps_covers _ _ Hc Hk1) Hagrps
               (acc ++ outs) (avoids_app _ _ Hacc Ha1)) as [Hk2 Ha2].
  split; [by eapply keeps_trans|done].
Qed.
End protected.

Lemma assigned_disjoint dst cs k c :
  NoDup cs → c ∈ assigned dst (Some k) 0 cs → c ∉ assigned dst None 0 cs.
Proof.
  intros Hnd (n & Hn & Hd)%elem_of_assigned (n' & Hn' & Hd')%elem_of_assigned.
  rewrite (NoDup_lookup cs n n' c Hnd Hn Hn') in Hd. simpl in *. congruence.
Qed.

Lemma elem_of_assigned_sub dst d i cs c : c ∈ assigned dst d i cs → c ∈ cs.
Proof.
  intros (n & Hn & _)%elem_of_assigned. by eapply list_elem_of_lookup_2.
Qed.

(** C7. The source is not mutated. When every stage of the configuration is
    local, and the input batch is allocated: the store an invocation returns
    holds every part of the store it was given, the parts of the input batch
    among them, with the payload and the metadata they had; the parts the
    partition routes, to a group or to the batch of the parts of no group,
    are duplicates, new to the store; and the chains of the groups leave the
    parts of no group as the partition duplicated them. *)
Theorem source_not_mutated (g : GroupBy) (msg : Message) (h : heap) :
  local_stages g → allocated h msg →
  let o := ProcessMessage g msg h in
  let p := partition g msg h in
  (∀ l, l ∈ dom h → out_heap o !! l = h !! l) ∧
  contents (out_heap o) msg = contents h msg ∧
  (∀ b c, b ∈ p.1.1 ∨ b = p.1.2 → c ∈ b → c ∉ dom h) ∧
  contents (out_heap o) p.1.2 = contents p.2 p.1.2.
Proof.
  intros Hloc Ha. cbv zeta.
  rewrite ProcessMessage_heap. destruct (collect_char g msg h) as [_ ->].
  rewrite (partition_char g msg h Ha). cbn [fst snd].
  set (cs := (Message_Copy msg h).1). set (h1 := (Message_Copy msg h).2).
  set (dst := destination g h msg).
  set (grps := imap (λ k _, assigned dst (Some k) 0 cs) (groups g)).
  set (gl := assigned dst None 0 cs).
  pose proof (Message_Copy_NoDup msg h) as Hnd.
  pose proof (Message_Copy_fresh msg h) as Hfresh.
  pose proof (Message_Copy_frame msg h) as Hframe.
  pose proof (Message_Copy_dom msg h) as Hdom.
  fold cs h1 in Hnd, Hfresh, Hframe, Hdom.
  set (P := λ l : loc, l ∈ dom h ∨ l ∈ gl).
  assert (covers P h1) as Hc.
  { intros l [Hl|Hl]; rewrite Hdom; [set_solver|].
    apply elem_of_assigned_sub in Hl. set_solver. }
  assert (∀ b c, b ∈ grps → c ∈ b → ∃ k, c ∈ assigned dst (Some k) 0 cs)
    as Hgrps.
  { intros b c Hb Hcb. apply list_elem_of_lookup in Hb as [k Hk].
    unfold grps in Hk. rewrite list_lookup_imap in Hk.
    destruct (groups g !! k); [|done]. injection Hk as <-. by exists k. }
  assert (avoids P grps) as Hav.
  { intros b c Hb Hcb [Hin|Hin].
    - destruct (Hgrps b c Hb Hcb) as [k Hk].
      apply elem_of_assigned_sub in Hk. by apply (Hfresh c).
    - destruct (Hgrps b c Hb Hcb) as [k Hk].
      by apply (assigned_disjoint dst cs k c Hnd Hk). }
  destruct (run_chains_protected P (groups g) grps h1) as [Hk _];
    [|done|done|].
  { intros grp proc Hg Hp. by apply (Hloc grp proc). }
  assert (∀ l, l ∈ dom h → (run_chains (groups g) grps h1).2 !! l = h !! l)
    as Hkeep.
  { intros l Hl. rewrite (Hk l) by (by left). by apply Hframe. }
  split; [done|]. split; [by apply contents_frame|]. split.
  - intros b c [Hb| ->] Hcb; apply Hfresh.
    + destruct (Hgrps b c Hb Hcb) as [k Hk'].
      by apply elem_of_assigned_sub in Hk'.
    + by apply elem_of_assigned_sub in Hcb.
  - apply list_fmap_ext. intros i l Hl. unfold heap_get.
    rewrite (Hk l); [done|]. right. by eapply list_elem_of_lookup_2.
Qed.

(** ** The properties on concrete batches *)

Lemma allocatedb_true (h : heap) msg :
  allocatedb h msg = true → allocated h msg.
Proof.
  unfold allocatedb. rewrite forallb_forall. intros Hall l Hl.
  apply elem_of_dom. apply list_elem_of_In in Hl.
  specialize (Hall l Hl). by apply bool_decide_eq_true in Hall.
Qed.

Lemma stamp_local key value : local (stamp key value).
Proof.
  intros m h. unfold stamp. cbn [fst snd]. split.
  - intros l _. induction m as [|l0 m IH]; intros Hnl; simpl; [done|].
    apply not_elem_of_cons in Hnl as [Hne Hnl].
    rewrite lookup_alter_ne by done. by apply IH.
  - intros m' l ->%list_elem_of_singleton Hl _. done.
Qed.

Lemma failing_local : local failing.
Proof.
  intros m h. unfold failing. cbn [fst snd]. split; [done|].
  intros m' l ->%list_elem_of_singleton Hl _. done.
Qed.

Lemma overlapping_groups_local : local_stages overlapping_groups.
Proof.
  intros grp proc Hg Hp. unfold overlapping_groups in Hg. cbn [groups] in Hg.
  repeat (apply elem_of_cons in Hg as [->|Hg]); cbn [Processors] in Hp.
  - apply list_elem_of_singleton in Hp as ->. apply stamp_local.
  - apply elem_of_cons in Hp as [->|Hp]; [apply stamp_local|].
    apply list_elem_of_singleton in Hp as ->. apply failing_local.
  - by apply elem_of_nil in Hg.
Qed.

Lemma scenario_allocated : allocated scenario_heap scenario_msg.
Proof. apply allocatedb_true. vm_compute. reflexivity. Qed.

Lemma tagged_allocated : allocated tagged_heap scenario_msg.
Proof. apply allocatedb_true. vm_compute. reflexivity. Qed.

(** The scenario of the specification: the two parts with foo come first,
    in one batch, each with the metadata the stage of their group sets; the
    other part follows in a batch of its own, as it was; the input is as it
    was. *)
Example scenario_foo :
  let o := ProcessMessage scenario_groups scenario_msg scenario_heap in
  contents (out_heap o) <$> out_msgs o
  = [[mkPart "foo1" {["grouping" := "foo"]};
      mkPart "foo2" {["grouping" := "foo"]}];
     [mkPart "bar1" ∅]] ∧
  out_res o = None ∧
  contents (out_heap o) scenario_msg
  = [mkPart "foo1" ∅; mkPart "bar1" ∅; mkPart "foo2" ∅].
Proof. vm_compute. done. Qed.

(** With no group configured a batch is returned whole, as the batch of the
    parts of no group, and a batch of no parts is acknowledged. *)
Example scenario_no_groups :
  let o := ProcessMessage (mkGroupBy []) scenario_msg scenario_heap in
  contents (out_heap o) <$> out_msgs o
  = [contents scenario_heap scenario_msg] ∧
  out_res o = None ∧
  ProcessMessage (mkGroupBy []) [] scenario_heap
  = mkOutcome [] (Some NewAck) scenario_heap [].
Proof. vm_compute. done. Qed.

(** A stage that splits the batch of its group: both batches are
    forwarded, in the order the stage produced them. *)
Example scenario_split :
  let o := ProcessMessage splitting_groups scenario_msg scenario_heap in
  (map part_data <$> (contents (out_heap o) <$> out_msgs o))
  = [["foo1"]; ["bar1"; "foo2"]].
Proof. vm_compute. done. Qed.

(** A stage that reports an error: its batch is forwarded all the same, the
    response is nil, and the error is logged. *)
Example scenario_failing :
  let o := ProcessMessage overlapping_groups scenario_msg scenario_heap in
  (map part_data <$> (contents (out_heap o) <$> out_msgs o))
  = [["foo1"; "foo2"]; ["bar1"]] ∧
  out_res o = None ∧ out_log o = ["Processor error: boom" +:+ newline].
Proof. vm_compute. done. Qed.

(** C6, as the claim words it, fails: a stage that leaves one batch of no
    parts has that batch forwarded, while the claim keeps the non-empty
    batches only. *)
Lemma collection_keeps_empty_batches :
  out_msgs (ProcessMessage stripping_groups scenario_msg scenario_heap)
  = [[]] ∧
  out_res (ProcessMessage stripping_groups scenario_msg scenario_heap)
  = None ∧
  out_msgs (ProcessMessage stripping_groups scenario_msg scenario_heap)
  ≠ collection_of_non_empty stripping_groups scenario_msg scenario_heap.
Proof. vm_compute. repeat split. discriminate. Qed.

(** First-match priority on the scenario batch with two overlapping groups:
    the duplicate of the part foo1, which both groups accept. *)
Lemma first_match_priority_witness :
  allocated scenario_heap scenario_msg ∧
  (Message_Copy scenario_msg scenario_heap).1 !! 0 = Some 4%positive ∧
  let r := partition overlapping_groups scenario_msg scenario_heap in
  let lm := Lock scenario_heap scenario_msg 0 in
  (∀ k, in_group r.1.1 k 4%positive
        ↔ first_match (groups overlapping_groups) lm k) ∧
  (4%positive ∈ r.1.2 ↔ no_match (groups overlapping_groups) lm) ∧
  (∀ a b ga gb, a < b →
     groups overlapping_groups !! a = Some ga →
     groups overlapping_groups !! b = Some gb →
     Condition ga lm = true → Condition gb lm = true →
     ¬ in_group r.1.1 b 4%positive ∧
     ∃ k, k ≤ a ∧ in_group r.1.1 k 4%positive) ∧
  (∀ k, in_group r.1.1 k 4%positive → 4%positive ∉ r.1.2).
Proof.
  split; [exact scenario_allocated|].
  split; [vm_compute; reflexivity|].
  apply (first_match_priority overlapping_groups scenario_msg scenario_heap
           0 4%positive).
  - exact scenario_allocated.
  - vm_compute; reflexivity.
Defined.

(** Order preservation on the scenario batch: the working batch of the
    group of the payloads with foo. *)
Lemma order_preservation_witness :
  allocated scenario_heap scenario_msg ∧
  let r := partition scenario_groups scenario_msg scenario_heap in
  let cs := (Message_Copy scenario_msg scenario_heap).1 in
  ([4%positive; 6%positive] ∈ r.1.1 ∨ [4%positive; 6%positive] = r.1.2) ∧
  NoDup cs ∧
  contents r.2 cs = contents scenario_heap scenario_msg ∧
  sublist [4%positive; 6%positive] cs ∧
  sublist (contents r.2 [4%positive; 6%positive])
    (contents scenario_heap scenario_msg).
Proof.
  split; [exact scenario_allocated|].
  assert ([4%positive; 6%positive]
          ∈ (partition scenario_groups scenario_msg scenario_heap).1.1) as Hin.
  { vm_compute. left. }
  cbv zeta. split; [by left|].
  apply (order_preservation scenario_groups scenario_msg scenario_heap
           [4%positive; 6%positive]).
  - exact scenario_allocated.
  - left. exact Hin.
Defined.

(** Non-mutation on the scenario batch, with stages that edit in place the
    parts they are given. *)
Lemma source_not_mutated_witness :
  local_stages overlapping_groups ∧
  allocated scenario_heap scenario_msg ∧
  let o := ProcessMessage overlapping_groups scenario_msg scenario_heap in
  let p := partition overlapping_groups scenario_msg scenario_heap in
  (∀ l, l ∈ dom scenario_heap → out_heap o !! l = scenario_heap !! l) ∧
  contents (out_heap o) scenario_msg = contents scenario_heap scenario_msg ∧
  (∀ b c, b ∈ p.1.1 ∨ b = p.1.2 → c ∈ b → c ∉ dom scenario_heap) ∧
  contents (out_heap o) p.1.2 = contents p.2 p.1.2.
Proof.
  split; [exact overlapping_groups_local|].
  split; [exact scenario_allocated|].
  apply (source_not_mutated overlapping_groups scenario_msg scenario_heap).
  - exact overlapping_groups_local.
  - exact scenario_allocated.
Defined.

(** The metadata stage that sets grouping to foo, on the scenario batch. *)
Lemma metadata_stage_witness :
  NewMetadata (text := plain_text) set_grouping_conf = inl set_grouping ∧
  allocated scenario_heap scenario_msg ∧
  let o := Metadata_ProcessMessage (text := plain_text) set_grouping
             scenario_msg scenario_heap in
  let v := resolved_value (text := plain_text) set_grouping_conf
             (contents scenario_heap scenario_msg) in
  (∃ newMsg, out_msgs o = [newMsg] ∧ length newMsg = length scenario_msg ∧
     ∀ k l, scenario_msg !! k = Some l →
       ∃ c, newMsg !! k = Some c ∧
         heap_get (out_heap o) c
         = if targeted (Parts set_grouping_conf) (length scenario_msg) k
           then edited (Operator set_grouping_conf) (Key set_grouping_conf)
                  v (heap_get scenario_heap l)
           else heap_get scenario_heap l) ∧
  out_res o = None ∧ out_log o = [] ∧
  (∀ conf', (∃ err, NewMetadata (text := plain_text) conf' = inr err)
            ↔ Operator conf' ∉ ["set"; "delete_all"; "delete_prefix"]).
Proof.
  split; [reflexivity|].
  split; [exact scenario_allocated|].
  apply (metadata_stage (text := plain_text) set_grouping_conf set_grouping
           scenario_msg scenario_heap).
  - reflexivity.
  - exact scenario_allocated.
Defined.

(** The metadata stage with a value read from the metadata of the first
    part, set on the first and on the last part: both get the value the
    first part had on entry. *)
Lemma metadata_input_unchanged_witness :
  NewMetadata (text := first_part_text) resolved_conf = inl resolved_stage ∧
  allocated tagged_heap scenario_msg ∧
  let o := Metadata_ProcessMessage (text := first_part_text) resolved_stage
             scenario_msg tagged_heap in
  let v := resolved_value (text := first_part_text) resolved_conf
             (contents tagged_heap scenario_msg) in
  (∀ l, l ∈ dom tagged_heap → out_heap o !! l = tagged_heap !! l) ∧
  contents (out_heap o) scenario_msg = contents tagged_heap scenario_msg ∧
  (∀ newMsg c, newMsg ∈ out_msgs o → c ∈ newMsg → c ∉ dom tagged_heap) ∧
  (Operator resolved_conf = "set" →
   ∀ newMsg k c, newMsg ∈ out_msgs o → newMsg !! k = Some c →
     targeted (Parts resolved_conf) (length scenario_msg) k = true →
     part_metadata (heap_get (out_heap o) c) !! Key resolved_conf = Some v).
Proof.
  split; [reflexivity|].
  split; [exact tagged_allocated|].
  apply (metadata_input_unchanged (text := first_part_text) resolved_conf
           resolved_stage scenario_msg tagged_heap).
  - reflexivity.
  - exact tagged_allocated.
Defined.

(** The value is resolved once: the first and the last part are set to the
    value the first part had, the part between them and the input batch are
    as they were. *)
Example resolved_once :
  let o := Metadata_ProcessMessage (text := first_part_text) resolved_stage
             scenario_msg tagged_heap in
  contents (out_heap o) <$> out_msgs o
  = [[mkPart "a" {["grouping" := "first"]};
      mkPart "b" ∅;
      mkPart "c" {["grouping" := "first"]}]] ∧
  contents (out_heap o) scenario_msg = contents tagged_heap scenario_msg.
Proof. vm_compute. done. Qed.

(** * Further properties of the two processors *)

(** ** Batches that no group, or one group, takes whole *)

Lemma assigned_all dst d cs : ∀ i,
  (∀ n, n < length cs → dst (i + n) = d) → assigned dst d i cs = cs.
Proof.
  induction cs as [|c cs IH]; intros i Hd; simpl; [done|].
  rewrite decide_True by (rewrite <- (Nat.add_0_r i); apply Hd; simpl; lia).
  f_equal. apply IH. intros n Hn.
  replace (S i + n) with (i + S n) by lia. apply Hd. simpl. lia.
Qed.

Lemma assigned_none dst d cs : ∀ i,
  (∀ n, n < length cs → dst (i + n) ≠ d) → assigned dst d i cs = [].
Proof.
  induction cs as [|c cs IH]; intros i Hd; simpl; [done|].
  rewrite decide_False by (rewrite <- (Nat.add_0_r i); apply Hd; simpl; lia).
  apply IH. intros n Hn.
  replace (S i + n) with (i + S n) by lia. apply Hd. simpl. lia.
Qed.

Lemma process_groups_all_empty g grps :
  (∀ m, m ∈ grps → m = []) →
  ∀ i st, process_groups g i grps st = st.
Proof.
  induction grps as [|m grps IH]; intros Hall i st; simpl; [done|].
  rewrite (Hall m) by left.
  destruct st as [[msgs h] log]. rewrite process_group_empty.
  apply IH. intros m' Hm'. apply Hall. by right.
Qed.

Lemma unmatched_forwarded (g : GroupBy) (msg : Message)
    (h : heap) :
  allocated h msg → msg ≠ [] →
  (∀ i, i < length msg → no_match (groups g) (Lock h msg i)) →
  let o := ProcessMessage g msg h in
  out_msgs o = [(Message_Copy msg h).1] ∧
  out_res o = None ∧ out_log o = [] ∧
  out_heap o = (Message_Copy msg h).2 ∧
  contents (out_heap o) (Message_Copy msg h).1 = contents h msg.
Proof.
  intros Ha Hne Hno. cbv zeta. unfold ProcessMessage.
  rewrite bool_decide_false by (by destruct msg).
  unfold collect. rewrite (partition_char g msg h Ha).
  pose proof (Message_Copy_length msg h) as Hlen.
  pose proof (Message_Copy_contents msg h Ha) as Hcont.
  destruct (Message_Copy msg h) as [cs h1]. cbn [fst snd] in *.
  assert (∀ n, n < length cs → destination g h msg (0 + n) = None) as Hdst.
  { intros n Hn. apply check_groups_None, Hno. simpl. lia. }
  rewrite (assigned_all _ None cs 0 Hdst).
  rewrite process_groups_all_empty.
  - rewrite bool_decide_true by (rewrite Hlen; destruct msg; simpl; [done|lia]).
    simpl. done.
  - intros m [k Hk]%list_elem_of_lookup. rewrite list_lookup_imap in Hk.
    destruct (groups g !! k); [|done]. injection Hk as <-.
    apply assigned_none. intros n Hn. by rewrite (Hdst n Hn).
Qed.

(** X1. A batch with parts of which no part passes any condition (so also
    every batch, when no group is configured) is forwarded whole: the
    invocation returns one batch, the duplicates of all the input parts in
    input order, with the nil response; no stage runs and nothing is
    logged. *)
Theorem unmatched_batch_forwarded_whole (g : GroupBy) (msg : Message)
    (h : heap) :
  allocated h msg → msg ≠ [] →
  (∀ i, i < length msg → no_match (groups g) (Lock h msg i)) →
  let o := ProcessMessage g msg h in
  out_msgs o = [(Message_Copy msg h).1] ∧
  out_res o = None ∧ out_log o = [] ∧
  out_heap o = (Message_Copy msg h).2 ∧
  contents (out_heap o) (Message_Copy msg h).1 = contents h msg.
Proof. apply unmatched_forwarded. Qed.

(** X2. A catch-all group shadows what comes after it: when the condition
    of group [k] passes on every part of the batch, the working batch of
    every later group and the batch of the parts of no group stay empty. *)
Theorem catch_all_shadows (g : GroupBy) (msg : Message) (h : heap)
    (k : nat) (grp : group) :
  allocated h msg →
  groups g !! k = Some grp →
  (∀ i, i < length msg → Condition grp (Lock h msg i) = true) →
  let p := partition g msg h in
  p.1.2 = [] ∧
  ∀ k' m, k < k' → p.1.1 !! k' = Some m → m = [].
Proof.
  intros Ha Hk Hall. cbv zeta. rewrite (partition_char g msg h Ha).
  pose proof (Message_Copy_length msg h) as Hlen.
  destruct (Message_Copy msg h) as [cs h1]. cbn [fst snd] in *.
  assert (∀ n, n < length cs →
            ∃ j, destination g h msg n = Some j ∧ j ≤ k) as Hdst.
  { intros n Hn. rewrite Hlen in Hn. specialize (Hall n Hn).
    destruct (destination g h msg n) as [j|] eqn:Hd.
    - exists j. split; [done|].
      apply check_groups_first_match in Hd as [_ Hmin].
      destruct (decide (j ≤ k)) as [|Hgt]; [done|].
      specialize (Hmin k grp ltac:(lia) Hk). congruence.
    - apply check_groups_None in Hd. specialize (Hd k grp Hk). congruence. }
  split.
  - apply assigned_none. intros n Hn. simpl.
    destruct (Hdst n Hn) as (j & -> & _). done.
  - intros k' m Hlt Hm. rewrite list_lookup_imap in Hm.
    destruct (groups g !! k'); [|done]. injection Hm as <-.
    apply assigned_none. intros n Hn. simpl.
    destruct (Hdst n Hn) as (j & -> & Hj). intros [= ->]. lia.
Qed.

(** ** Stages that keep the parts of their batch *)

Lemma stage_over_preserving proc ws : preserving proc → ∀ h,
  length <$> (stage_over proc ws h).1 = length <$> ws.
Proof.
  intros Hp. induction ws as [|m ws IH]; intros h; [done|].
  cbn [stage_over]. destruct (Hp m h) as (m' & Hout & Hlen).
  destruct (proc m h) as [[outs res] h1]. cbn [fst snd] in Hout. subst outs.
  specialize (IH h1). destruct (stage_over proc ws h1) as [rest h2].
  cbn [fst snd] in *. csimpl. by rewrite Hlen, IH.
Qed.

Lemma chain_preserving procs :
  (∀ proc, proc ∈ procs → preserving proc) →
  ∀ st, length <$> (fold_left chain_step procs st).1 = length <$> st.1.
Proof.
  induction procs as [|proc procs IH]; intros Hp st; [done|].
  cbn [fold_left]. rewrite IH by (intros q Hq; apply Hp; by right).
  unfold chain_step. destruct st as [[|m ws] h]; [done|]. cbn [fst snd].
  apply stage_over_preserving, Hp. left.
Qed.

Lemma non_empty_zip (gs : list group) : ∀ grps : list Message,
  length grps ≤ length gs →
  (filter (λ x : group * Message, x.2 ≠ []) (zip gs grps)).*2
  = non_empty grps.
Proof.
  unfold non_empty.
  induction gs as [|grp gs IH]; intros [|m grps] Hlen; simpl in Hlen;
    [done|lia|done|].
  cbn [zip zip_with]. rewrite !filter_cons. cbn [snd].
  destruct (decide (m ≠ [])); csimpl; rewrite IH by lia; done.
Qed.

Lemma run_chains_preserving gs :
  (∀ grp proc, grp ∈ gs → proc ∈ Processors grp → preserving proc) →
  ∀ grps h, length grps ≤ length gs →
  length <$> (run_chains gs grps h).1 = length <$> non_empty grps.
Proof.
  intros Hp grps h Hlen. rewrite <- (non_empty_zip gs grps Hlen).
  unfold run_chains.
  assert (∀ x, x ∈ filter (λ x : group * Message, x.2 ≠ []) (zip gs grps) →
            x.1 ∈ gs) as Hin.
  { intros [grp m] [_ Hx]%list_elem_of_filter.
    apply list_elem_of_lookup in Hx as [i Hi].
    apply lookup_zip_with_Some in Hi as (grp' & m' & [= <- <-] & Hg & _).
    by eapply list_elem_of_lookup_2. }
  revert Hin.
  generalize (filter (λ x : group * Message, x.2 ≠ []) (zip gs grps)).
  intros l.
  change (length <$> l.*2)
    with ((length <$> @nil Message) ++ (length <$> l.*2)).
  generalize (@nil Message). revert h.
  induction l as [|[grp m] l IH]; intros h acc Hin; cbn [fold_left].
  - by rewrite app_nil_r.
  - cbn [fst snd].
    pose proof (chain_preserving (Processors grp)
      (λ q Hq, Hp grp q (Hin (grp, m) (list_elem_of_here _ _)) Hq) ([m], h))
      as Hc.
    fold (chain_fold (Processors grp) m h) in Hc.
    destruct (chain_fold (Processors grp) m h) as [outs h1].
    cbn [fst snd] in Hc.
    rewrite IH by (intros x Hx; apply Hin; by right).
    rewrite fmap_app, Hc. csimpl. by rewrite <- app_assoc.
Qed.

Lemma sum_lengths_non_empty (grps : list Message) :
  sum_list (length <$> non_empty grps) = sum_list (length <$> grps).
Proof.
  unfold non_empty. induction grps as [|m grps IH]; [done|].
  rewrite filter_cons. destruct (decide (m ≠ [])) as [Hne|He]; csimpl.
  - by rewrite IH.
  - rewrite IH. destruct m; [done|]. exfalso. by apply He.
Qed.

Lemma sum_lengths_residual (gl : Message) :
  sum_list (length <$> residual gl) = length gl.
Proof. destruct gl; simpl; lia. Qed.

Lemma preserving_stages_conserve (g : GroupBy) (msg : Message)
    (h : heap) :
  preserving_stages g →
  let o := ProcessMessage g msg h in
  let p := partition g msg h in
  length <$> out_msgs o = length <$> (non_empty p.1.1 ++ residual p.1.2) ∧
  sum_list (length <$> out_msgs o) = length msg ∧
  (msg ≠ [] → out_res o = None).
Proof.
  intros Hp. cbv zeta.
  rewrite ProcessMessage_res, ProcessMessage_msgs.
  destruct (collect_char g msg h) as [Hmsgs _]. rewrite Hmsgs.
  destruct (partition_counts g msg h) as [Hlen Hsum].
  assert (length <$> (run_chains (groups g) (partition g msg h).1.1
                        (partition g msg h).2).1
                     ++ residual (partition g msg h).1.2
          = length <$> (non_empty (partition g msg h).1.1
                        ++ residual (partition g msg h).1.2)) as Hl.
  { rewrite !fmap_app. f_equal.
    apply run_chains_preserving; [exact Hp|]. by rewrite Hlen. }
  assert (sum_list (length <$> (run_chains (groups g) (partition g msg h).1.1
                        (partition g msg h).2).1
                     ++ residual (partition g msg h).1.2) = length msg)
    as Hs.
  { rewrite Hl, fmap_app, sum_list_with_app, sum_lengths_non_empty,
      sum_lengths_residual. exact Hsum. }
  split; [done|]. split; [done|]. intros Hne.
  rewrite bool_decide_false; [done|]. intros [H0|Hnil].
  - by destruct msg.
  - rewrite Hnil in Hs. simpl in Hs. by destruct msg.
Qed.

(** X3. With stages that keep their batch, an invocation loses no part:
    it returns one batch for each working batch that has parts, in group
    order and each of the size of its working batch, then the batch of the
    parts of no group; the parts of the batches returned are as many as
    those of the input; and an input with parts is never answered with the
    acknowledgement. *)
Theorem preserving_stages_lose_nothing (g : GroupBy) (msg : Message)
    (h : heap) :
  preserving_stages g →
  let o := ProcessMessage g msg h in
  let p := partition g msg h in
  length <$> out_msgs o = length <$> (non_empty p.1.1 ++ residual p.1.2) ∧
  sum_list (length <$> out_msgs o) = length msg ∧
  (msg ≠ [] → out_res o = None).
Proof. apply preserving_stages_conserve. Qed.

(** ** Groups without stages *)

Lemma ProcessMessage_log g msg h :
  out_log (ProcessMessage g msg h) = (collect g msg h).2.
Proof.
  unfold ProcessMessage. case_bool_decide as Hmsg.
  - destruct msg; [|done]. by rewrite collect_nil.
  - destruct (collect g msg h) as [[msgs h2] log]. cbn [fst snd].
    by case_bool_decide.
Qed.

Lemma process_groups_bare g grps :
  (∀ i, group_processors g i = []) →
  ∀ i msgs h log,
    process_groups g i grps (msgs, h, log) = (msgs ++ non_empty grps, h, log).
Proof.
  intros Hbare. unfold non_empty.
  induction grps as [|m grps IH]; intros i msgs h log; cbn [process_groups].
  - by rewrite app_nil_r.
  - rewrite filter_cons. unfold process_group. rewrite Hbare.
    destruct m as [|l m].
    + rewrite bool_decide_true by done.
      rewrite decide_False by (intros Hne; by apply Hne). apply IH.
    + rewrite bool_decide_false by done. rewrite decide_True by done.
      cbn [run_stages log_response]. rewrite bool_decide_true by (simpl; lia).
      rewrite IH. by rewrite <- app_assoc.
Qed.

(** X4. Groups without stages only split the batch: when no group has a
    stage, the batches returned are the working batches that have parts, in
    group order and as the partition built them, then the batch of the
    parts of no group; the store is the one the partition leaves and
    nothing is logged. *)
Theorem bare_groups_only_split (g : GroupBy) (msg : Message) (h : heap) :
  (∀ grp, grp ∈ groups g → Processors grp = []) →
  let o := ProcessMessage g msg h in
  let p := partition g msg h in
  out_msgs o = non_empty p.1.1 ++ residual p.1.2 ∧
  out_heap o = p.2 ∧ out_log o = [].
Proof.
  intros Hbare. cbv zeta.
  rewrite ProcessMessage_msgs, ProcessMessage_heap, ProcessMessage_log.
  unfold collect. destruct (partition g msg h) as [[grps gl] h1].
  rewrite process_groups_bare.
  - cbn [fst snd]. rewrite <- residual_length.
    case_bool_decide; cbn [fst snd]; [done|]. by rewrite app_nil_r.
  - intros i. unfold group_processors.
    destruct (groups g !! i) as [grp|] eqn:Hi; [|done].
    apply Hbare. by eapply list_elem_of_lookup_2.
Qed.

(** ** What is logged *)

Lemma log_response_length res log :
  length (log_response res log) ≤ S (length log).
Proof.
  unfold log_response. destruct res as [[[err|] ?]|]; simpl;
    rewrite ?length_app; simpl; lia.
Qed.

Lemma process_groups_log_length g grps : ∀ i msgs h log,
  length (process_groups g i grps (msgs, h, log)).2
  ≤ length log + length (non_empty grps).
Proof.
  unfold non_empty.
  induction grps as [|m grps IH]; intros i msgs h log; cbn [process_groups].
  - simpl. lia.
  - rewrite filter_cons. unfold process_group.
    destruct m as [|l m].
    + rewrite bool_decide_true by done.
      rewrite decide_False by (intros Hne; by apply Hne). apply IH.
    + rewrite bool_decide_false by done. rewrite decide_True by done.
      destruct (run_stages _ _ _ _) as [[rs res] h'].
      etrans; [apply IH|].
      pose proof (log_response_length res log). simpl. lia.
Qed.

Lemma non_empty_length (grps : list Message) :
  length (non_empty grps) ≤ length grps.
Proof. apply length_filter. Qed.

(** X5. At most one line is logged for a group, and none for a group that
    got no part: the lines an invocation logs are at most as many as the
    working batches that have parts, hence at most as many as the groups. *)
Theorem one_log_line_per_group (g : GroupBy) (msg : Message) (h : heap) :
  let o := ProcessMessage g msg h in
  length (out_log o) ≤ length (non_empty (partition g msg h).1.1) ∧
  length (out_log o) ≤ length (groups g).
Proof.
  cbv zeta. rewrite ProcessMessage_log.
  destruct (partition_counts g msg h) as [Hlen _].
  assert (length (collect g msg h).2
          ≤ length (non_empty (partition g msg h).1.1)) as Hle.
  { unfold collect. destruct (partition g msg h) as [[grps gl] h1].
    pose proof (process_groups_log_length g grps 0 [] h1 []) as Hl.
    destruct (process_groups g 0 grps ([], h1, [])) as [[msgs h2] log].
    cbn [fst snd] in *. by case_bool_decide. }
  split; [done|]. etrans; [exact Hle|]. rewrite <- Hlen.
  apply non_empty_length.
Qed.

Lemma apply_stage_quiet proc ws : quiet proc → ws ≠ [] →
  ∀ next res h, (apply_stage proc ws next res h).1.2 = None.
Proof.
  intros Hq. induction ws as [|m ws IH]; intros Hne next res h; [done|].
  cbn [apply_stage]. pose proof (Hq m h) as Hres.
  destruct (proc m h) as [[outs res'] h1]. cbn [fst snd] in Hres. subst res'.
  destruct ws as [|m' ws]; [done|]. by apply IH.
Qed.

Lemma run_stages_app procs procs' : ∀ ws res h,
  run_stages (procs ++ procs') ws res h
  = run_stages procs' (run_stages procs ws res h).1.1
      (run_stages procs ws res h).1.2 (run_stages procs ws res h).2.
Proof.
  induction procs as [|proc procs IH]; intros ws res h; [done|].
  cbn [app run_stages]. case_bool_decide as Hlen.
  - destruct (apply_stage proc ws [] res h) as [[next res'] h']. apply IH.
  - cbn [fst snd]. destruct ws; [|simpl in Hlen; lia]. by destruct procs'.
Qed.

(** X6. Only the response of the last call is looked at. When the chain of
    a group ends with a stage that never reports, and the working set is
    not empty when that stage is reached, nothing is logged for the group,
    whatever the stages before it reported. *)
Theorem earlier_errors_not_logged (g : GroupBy) (i : nat) (grp : group)
    (procs : list ProcessorType) (final : ProcessorType) (gmsg : Message)
    (msgs : list Message) (h : heap) (log : list string) :
  groups g !! i = Some grp →
  Processors grp = procs ++ [final] →
  quiet final →
  gmsg ≠ [] →
  (chain_fold procs gmsg h).1 ≠ [] →
  (process_group g i gmsg (msgs, h, log)).2 = log.
Proof.
  intros Hi Hprocs Hq Hne Hws. unfold process_group, group_processors.
  rewrite Hi, Hprocs. rewrite bool_decide_false by (by destruct gmsg).
  rewrite run_stages_app.
  destruct (run_stages_fold procs [gmsg] None h) as [Hfold _].
  fold (chain_fold procs gmsg h) in Hfold. rewrite <- Hfold in Hws.
  destruct (run_stages procs [gmsg] None h) as [[ws res] h1].
  cbn [fst snd] in *. cbn [run_stages].
  rewrite bool_decide_true by (destruct ws; simpl; [done|lia]).
  pose proof (apply_stage_quiet final ws Hq Hws [] res h1) as Hres.
  destruct (apply_stage final ws [] res h1) as [[next res'] h2].
  cbn [fst snd] in *. by subst res'.
Qed.

(** ** A [GroupBy] as a stage of another *)

Lemma route_part_new g msg i p grps gl (h0 h : heap) :
  length grps = length (groups g) →
  (∀ l, l ∈ dom h0 → h !! l = h0 !! l) →
  (∀ l, l ∈ concat grps ++ gl → l ∈ dom h ∧ l ∉ dom h0) →
  let r := route_part g msg i p (grps, gl, h) in
  (∀ l, l ∈ dom h0 → r.2 !! l = h0 !! l) ∧
  (∀ l, l ∈ concat r.1.1 ++ r.1.2 → l ∈ dom r.2 ∧ l ∉ dom h0).
Proof.
  intros Hlen Hkeep Hnew. unfold route_part, Part_Copy.
  assert (fresh (dom h) ∉ dom h0) as Hfresh.
  { intros Hin. apply (is_fresh (dom h)). apply elem_of_dom.
    rewrite (Hkeep _ Hin). by apply elem_of_dom. }
  assert (∀ l, l ∈ dom h0 →
            <[fresh (dom h):=heap_get h p]> h !! l = h0 !! l) as Hkeep'.
  { intros l Hl. rewrite lookup_insert_ne; [by apply Hkeep|].
    intros Heq. apply Hfresh. by rewrite Heq. }
  assert (∀ l, l = fresh (dom h) ∨ l ∈ concat grps ++ gl →
            l ∈ dom (<[fresh (dom h):=heap_get h p]> h) ∧ l ∉ dom h0)
    as Hnew'.
  { intros l [->|Hl].
    - split; [rewrite dom_insert_L; set_solver|done].
    - destruct (Hnew l Hl) as [Hd Hn]. split; [|done].
      rewrite dom_insert_L. set_solver. }
  destruct (check_groups _ _ _) as [j|] eqn:Hj; cbn [fst snd].
  - split; [done|]. intros l Hl. apply Hnew'.
    apply check_groups_first_match, first_match_lt in Hj.
    rewrite (concat_alter_Append grps j (fresh (dom h)) ltac:(lia)) in Hl.
    simpl in Hl. by apply elem_of_cons in Hl.
  - split; [done|]. intros l Hl. apply Hnew'.
    unfold Append in Hl. rewrite app_assoc in Hl.
    apply elem_of_app in Hl as [Hl|Hl%list_elem_of_singleton]; auto.
Qed.

Lemma Iter_route_new g msg (h0 : heap) ps : ∀ i grps gl (h : heap),
  length grps = length (groups g) →
  (∀ l, l ∈ dom h0 → h !! l = h0 !! l) →
  (∀ l, l ∈ concat grps ++ gl → l ∈ dom h ∧ l ∉ dom h0) →
  let r := Iter (route_part g msg) i ps (grps, gl, h) in
  (∀ l, l ∈ dom h0 → r.2 !! l = h0 !! l) ∧
  (∀ l, l ∈ concat r.1.1 ++ r.1.2 → l ∈ dom r.2 ∧ l ∉ dom h0).
Proof.
  induction ps as [|p ps IH]; intros i grps gl h Hlen Hkeep Hnew;
    cbn [Iter]; [done|].
  pose proof (route_part_count g msg i p grps gl h Hlen) as [Hl _].
  pose proof (route_part_new g msg i p grps gl h0 h Hlen Hkeep Hnew)
    as [Hkeep1 Hnew1].
  destruct (route_part g msg i p (grps, gl, h)) as [[grps1 gl1] h1].
  cbn [fst snd] in *. apply IH; [congruence|done|done].
Qed.

(** The partition only allocates, and what it routes is new to the store,
    whatever the batch. *)
Lemma partition_new g msg (h : heap) :
  (∀ l, l ∈ dom h → (partition g msg h).2 !! l = h !! l) ∧
  (∀ l, l ∈ concat (partition g msg h).1.1 ++ (partition g msg h).1.2 →
     l ∈ dom (partition g msg h).2 ∧ l ∉ dom h).
Proof.
  unfold partition. apply Iter_route_new.
  - by rewrite length_replicate.
  - done.
  - rewrite concat_replicate_nil. by intros l ?%elem_of_nil.
Qed.

Lemma elem_of_concat_batch (grps : list Message) b (c : loc) :
  b ∈ grps → c ∈ b → c ∈ concat grps.
Proof.
  induction grps as [|m grps IH]; [by intros ?%elem_of_nil|].
  intros [->|Hb]%elem_of_cons Hc; simpl; apply elem_of_app; auto.
Qed.




(** ** The metadata operators *)

(** X8. The operator delete_all leaves no key at all, whatever the
    metadata, the key and the value it is given, and reports no error. *)
Theorem delete_all_clears (key value : string) (m : gmap string string) :
  newMetadataDeleteAllOperator key m value = (∅, None).
Proof.
  unfold newMetadataDeleteAllOperator. by rewrite delete_all_empty.
Qed.

Lemma delete_prefix_lookup (key value : string) (m : gmap string string) k :
  (newMetadataDeletePrefixOperator key m value).1 !! k
  = if String.prefix value k then None else m !! k.
Proof.
  unfold newMetadataDeletePrefixOperator. cbn [fst].
  rewrite (Metadata_Iter_delete (String.prefix value) m).
  destruct (String.prefix value k) eqn:Hp.
  - apply map_lookup_filter_None. right. intros v _. simpl. congruence.
  - apply option_eq. intros v. rewrite map_lookup_filter_Some. naive_solver.
Qed.

(** X9. The operator delete_prefix removes the keys that start with the
    value it is given, and only those: every other key keeps its value. The
    configured key plays no part, and no error is reported. *)
Theorem delete_prefix_removes_prefixed (key value : string)
    (m : gmap string string) :
  (∀ k, (newMetadataDeletePrefixOperator key m value).1 !! k
        = if String.prefix value k then None else m !! k) ∧
  (∀ key', newMetadataDeletePrefixOperator key' m value
           = newMetadataDeletePrefixOperator key m value) ∧
  (newMetadataDeletePrefixOperator key m value).2 = None.
Proof.
  split; [apply delete_prefix_lookup|]. split; [done|done].
Qed.

(** X10. With the empty value, delete_prefix is delete_all: every key
    starts with the empty string. *)
Theorem delete_prefix_empty_value (key : string) (m : gmap string string) :
  newMetadataDeletePrefixOperator key m ""
  = newMetadataDeleteAllOperator key m "".
Proof.
  unfold newMetadataDeleteAllOperator. rewrite delete_all_empty.
  rewrite (surjective_pairing (newMetadataDeletePrefixOperator key m "")).
  f_equal. apply map_eq. intros k. rewrite delete_prefix_lookup.
  rewrite lookup_empty. by destruct k.
Qed.

(** X11. Every operator that [getMetadataOperator] builds is idempotent and
    never reports an error: run twice with the same value, it leaves the
    metadata it leaves when run once. *)
Theorem operators_idempotent (opStr key : string) (op : metadataOperator)
    (m : gmap string string) (value : string) :
  getMetadataOperator opStr key = inl op →
  (op m value).2 = None ∧
  op (op m value).1 value = op m value.
Proof.
  intros Hop. rewrite !(getMetadataOperator_operation opStr key op Hop).
  cbn [fst snd]. split; [done|]. by rewrite operation_idemp.
Qed.

Lemma operators_idempotent_witness :
  getMetadataOperator "delete_prefix" "unused"
  = inl (newMetadataDeletePrefixOperator "unused") ∧
  (newMetadataDeletePrefixOperator "unused"
     {["kafka_key" := "a"; "http_path" := "b"]} "kafka_").2 = None ∧
  newMetadataDeletePrefixOperator "unused"
    (newMetadataDeletePrefixOperator "unused"
       {["kafka_key" := "a"; "http_path" := "b"]} "kafka_").1 "kafka_"
  = newMetadataDeletePrefixOperator "unused"
      {["kafka_key" := "a"; "http_path" := "b"]} "kafka_".
Proof.
  split; [reflexivity|].
  apply (operators_idempotent "delete_prefix" "unused"
           (newMetadataDeletePrefixOperator "unused")).
  reflexivity.
Defined.

(** ** The metadata stage, whatever its operator *)

Section metadata_any_operator.
Context {text : Text}.
Variables (p : Metadata) (newMsg : Message) (value : string).

Lemma edit_target_frame h log index :
  allocated h newMsg →
  let r := edit_target p newMsg value (h, log) index in
  allocated r.1 newMsg ∧
  (∀ l, l ∈ dom h → l ∈ dom r.1) ∧
  (∀ l, l ∈ dom h → l ∉ newMsg → r.1 !! l = h !! l).
Proof.
  intros Ha. unfold edit_target, apply_operator. cbn [fst snd].
  destruct (resolve_index (length newMsg) index) as [k|] eqn:Hr.
  - destruct (Message_Get_inside newMsg index h k Hr) as (l0 & Hl0 & ->).
    destruct (operator p _ value) as [md err].
    destruct err; cbn [fst];
      (split; [by apply allocated_insert|]; split;
       [intros l Hl; rewrite dom_insert_L; set_solver|]);
      intros l Hl Hnl; apply lookup_insert_ne; intros ->; apply Hnl;
      by eapply list_elem_of_lookup_2.
  - rewrite (Message_Get_outside newMsg index h Hr).
    destruct (operator p _ value) as [md err].
    pose proof (fresh_not_allocated h newMsg Ha) as Hfresh.
    destruct err; cbn [fst]; rewrite insert_insert_eq;
      (split; [by apply allocated_insert|]; split;
       [intros l Hl; rewrite dom_insert_L; set_solver|]);
      intros l Hl _; apply lookup_insert_ne; intros Heq;
      rewrite <- Heq in Hl; by apply (is_fresh (dom h)).
Qed.

Lemma edit_loop_frame indexes : ∀ h log,
  allocated h newMsg →
  let r := foldl (edit_target p newMsg value) (h, log) indexes in
  allocated r.1 newMsg ∧
  (∀ l, l ∈ dom h → l ∈ dom r.1) ∧
  (∀ l, l ∈ dom h → l ∉ newMsg → r.1 !! l = h !! l).
Proof.
  induction indexes as [|index indexes IH]; intros h log Ha; [done|].
  cbn [foldl].
  destruct (edit_target_frame h log index Ha) as (Ha1 & Hd1 & Hf1).
  destruct (edit_target p newMsg value (h, log) index) as [h1 log1].
  cbn [fst snd] in *.
  destruct (IH h1 log1 Ha1) as (Ha2 & Hd2 & Hf2).
  split; [done|]. split; [by auto|].
  intros l Hl Hnl. rewrite Hf2 by auto. by apply Hf1.
Qed.
End metadata_any_operator.

Section metadata_more.
Context {text : Text}.

(** What the metadata stage returns and keeps, for any operator and any
    store. *)
Lemma Metadata_ProcessMessage_frame (p : Metadata) msg h :
  let o := Metadata_ProcessMessage p msg h in
  out_msgs o = [(Message_Copy msg h).1] ∧ out_res o = None ∧
  allocated (out_heap o) (Message_Copy msg h).1 ∧
  (∀ l, l ∈ dom h → out_heap o !! l = h !! l).
Proof.
  cbv zeta. unfold Metadata_ProcessMessage.
  pose proof (Message_Copy_fresh msg h) as Hfresh.
  pose proof (Message_Copy_frame msg h) as Hframe.
  pose proof (Message_Copy_dom msg h) as Hdom.
  destruct (Message_Copy msg h) as [newMsg h1]. cbn [fst snd] in *.
  assert (allocated h1 newMsg) as Ha1.
  { intros l Hl. rewrite Hdom. set_solver. }
  match goal with
  | |- context [foldl (edit_target p newMsg ?v) (h1, []) ?ix] =>
      destruct (edit_loop_frame p newMsg v ix h1 [] Ha1) as (Ha2 & Hd2 & Hf2);
      destruct (foldl (edit_target p newMsg v) (h1, []) ix) as [h2 log]
  end.
  cbn [fst snd out_msgs out_res out_heap] in *.
  split; [done|]. split; [done|]. split; [done|].
  intros l Hl. rewrite Hf2, Hframe; [done|done| |].
  - apply elem_of_dom. rewrite Hframe by done. by apply elem_of_dom.
  - intros Hin. by apply (Hfresh l).
Qed.

Lemma Metadata_preserving (p : Metadata) :
  preserving (Metadata_as_processor p).
Proof.
  intros m h. unfold Metadata_as_processor. cbn [fst snd].
  destruct (Metadata_ProcessMessage_frame p m h) as (-> & _).
  exists (Message_Copy m h).1. split; [done|]. apply Message_Copy_length.
Qed.

Lemma Metadata_quiet (p : Metadata) : quiet (Metadata_as_processor p).
Proof.
  intros m h. unfold Metadata_as_processor. cbn [fst snd].
  by destruct (Metadata_ProcessMessage_frame p m h) as (_ & -> & _).
Qed.

Lemma Metadata_local (p : Metadata) : local (Metadata_as_processor p).
Proof.
  intros m h. unfold Metadata_as_processor. cbn [fst snd].
  destruct (Metadata_ProcessMessage_frame p m h) as (-> & _ & _ & Hfr).
  split; [by auto|].
  intros m' l ->%list_elem_of_singleton Hl Hd. exfalso.
  by apply (Message_Copy_fresh m h l).
Qed.

(** X12. The metadata stage keeps its batch, whatever its operator, its
    index subset and the store: it answers every batch with exactly one
    batch of as many parts and with the nil response. A batch of no parts
    is thus answered with one batch of no parts, not with an
    acknowledgement. *)
Theorem metadata_keeps_its_batch (p : Metadata) :
  preserving (Metadata_as_processor p) ∧
  quiet (Metadata_as_processor p) ∧
  ∀ h, out_msgs (Metadata_ProcessMessage p [] h) = [[]].
Proof.
  split; [apply Metadata_preserving|]. split; [apply Metadata_quiet|].
  intros h. by destruct (Metadata_ProcessMessage_frame p [] h) as (-> & _).
Qed.

End metadata_more.

(** ** Stages that never report *)

Lemma apply_stage_quiet_nil proc ws : quiet proc →
  ∀ next h, (apply_stage proc ws next None h).1.2 = None.
Proof.
  intros Hq. destruct ws as [|m ws]; [done|].
  intros next h. by apply apply_stage_quiet.
Qed.

Lemma run_stages_quiet procs :
  (∀ proc, proc ∈ procs → quiet proc) →
  ∀ ws h, (run_stages procs ws None h).1.2 = None.
Proof.
  induction procs as [|proc procs IH]; intros Hq ws h; [done|].
  cbn [run_stages]. case_bool_decide; [|done].
  pose proof (apply_stage_quiet_nil proc ws (Hq proc (list_elem_of_here _ _))
                [] h) as Hres.
  destruct (apply_stage proc ws [] None h) as [[next res] h1].
  cbn [fst snd] in Hres. subst res.
  apply IH. intros q Hin. apply Hq. by right.
Qed.

Lemma process_groups_quiet g grps : quiet_stages g →
  ∀ i msgs h log, (process_groups g i grps (msgs, h, log)).2 = log.
Proof.
  intros Hq. induction grps as [|m grps IH]; intros i msgs h log; [done|].
  cbn [process_groups]. unfold process_group. case_bool_decide; [apply IH|].
  assert (∀ proc, proc ∈ group_processors g i → quiet proc) as Hqi.
  { unfold group_processors. destruct (groups g !! i) as [grp|] eqn:Hi;
      [|by intros proc ?%elem_of_nil].
    intros proc Hin. apply (Hq grp proc); [|done].
    by eapply list_elem_of_lookup_2. }
  pose proof (run_stages_quiet (group_processors g i) Hqi [m] h) as Hres.
  destruct (run_stages (group_processors g i) [m] None h) as [[rs res] h1].
  cbn [fst snd] in Hres. subst res. apply IH.
Qed.

Lemma quiet_stages_log g msg h :
  quiet_stages g → out_log (ProcessMessage g msg h) = [].
Proof.
  intros Hq. rewrite ProcessMessage_log. unfold collect.
  destruct (partition g msg h) as [[grps gl] h1].
  pose proof (process_groups_quiet g grps Hq 0 [] h1 []) as Hlog.
  destruct (process_groups g 0 grps ([], h1, [])) as [[msgs h2] log].
  cbn [fst snd] in *. subst log. by case_bool_decide.
Qed.

(** X14. A configuration whose stages never report logs nothing, on any
    batch. *)
Theorem quiet_stages_log_nothing (g : GroupBy) (msg : Message) (h : heap) :
  quiet_stages g → out_log (ProcessMessage g msg h) = [].
Proof. apply quiet_stages_log. Qed.

Section metadata_in_groups.
Context {text : Text}.

Lemma metadata_stages_preserving g : metadata_stages g → preserving_stages g.
Proof.
  intros Hm grp proc Hg Hp. destruct (Hm grp proc Hg Hp) as [p ->].
  apply Metadata_preserving.
Qed.

Lemma metadata_stages_quiet g : metadata_stages g → quiet_stages g.
Proof.
  intros Hm grp proc Hg Hp. destruct (Hm grp proc Hg Hp) as [p ->].
  apply Metadata_quiet.
Qed.

Lemma metadata_stages_local g : metadata_stages g → local_stages g.
Proof.
  intros Hm grp proc Hg Hp. destruct (Hm grp proc Hg Hp) as [p ->].
  apply Metadata_local.
Qed.
End metadata_in_groups.

(** With local stages an invocation keeps the whole store it was given,
    allocated batch or not. *)
Lemma GroupBy_frame g msg (h : heap) :
  local_stages g →
  ∀ l, l ∈ dom h → out_heap (ProcessMessage g msg h) !! l = h !! l.
Proof.
  intros Hloc l Hl.
  rewrite ProcessMessage_heap. destruct (collect_char g msg h) as [_ ->].
  destruct (partition_new g msg h) as [Hkeep Hnew].
  destruct (partition g msg h) as [[grps gl] h1]. cbn [fst snd] in *.
  destruct (run_chains_protected (λ l, l ∈ dom h) (groups g) grps h1)
    as [Hk _].
  - intros grp proc Hg Hp. by apply (Hloc grp proc).
  - intros l' Hl'. apply elem_of_dom. rewrite (Hkeep l' Hl').
    by apply elem_of_dom.
  - intros b c Hb Hcb Hc.
    destruct (Hnew c) as [_ Hn]; [|done].
    apply elem_of_app. left. by eapply elem_of_concat_batch.
  - rewrite (Hk l Hl). by apply Hkeep.
Qed.

Section metadata_chains.
Context {text : Text}.

(** X15. The two processors together: a [GroupBy] whose stages are all
    metadata stages loses no part, never answers a batch that has parts
    with the acknowledgement, logs nothing, and leaves every part of the
    store it was given as it was. *)
Theorem metadata_groups_lose_nothing (g : GroupBy) (msg : Message)
    (h : heap) :
  metadata_stages g →
  let o := ProcessMessage g msg h in
  sum_list (length <$> out_msgs o) = length msg ∧
  (msg ≠ [] → out_res o = None) ∧
  out_log o = [] ∧
  (∀ l, l ∈ dom h → out_heap o !! l = h !! l).
Proof.
  intros Hm. cbv zeta.
  destruct (preserving_stages_conserve g msg h
              (metadata_stages_preserving g Hm)) as (_ & Hsum & Hres).
  split; [done|]. split; [done|].
  split; [by apply quiet_stages_log, metadata_stages_quiet|].
  by apply GroupBy_frame, metadata_stages_local.
Qed.
End metadata_chains.

(** ** The metadata stage on the values of a batch *)

Lemma edit_batch_length subset opStr key value batch :
  length (edit_batch subset opStr key value batch) = length batch.
Proof. unfold edit_batch. apply length_imap. Qed.

Lemma edit_batch_lookup subset opStr key value batch k :
  edit_batch subset opStr key value batch !! k
  = (λ p, if targeted subset (length batch) k
          then edited opStr key value p else p) <$> batch !! k.
Proof. unfold edit_batch. apply list_lookup_imap. Qed.

Lemma edit_batch_idemp subset opStr key value batch :
  edit_batch subset opStr key value (edit_batch subset opStr key value batch)
  = edit_batch subset opStr key value batch.
Proof.
  apply list_eq. intros k. rewrite !edit_batch_lookup, edit_batch_length.
  destruct (batch !! k) as [p|]; [|done]. simpl.
  destruct (targeted subset (length batch) k); [|done].
  by rewrite edited_idemp.
Qed.

Lemma edit_batch_data subset opStr key value batch :
  part_data <$> edit_batch subset opStr key value batch = part_data <$> batch.
Proof.
  apply list_eq. intros k. rewrite !list_lookup_fmap, edit_batch_lookup.
  destruct (batch !! k) as [p|]; [|done]. simpl.
  by destruct (targeted subset (length batch) k).
Qed.

Section metadata_values.
Context {text : Text}.

(** The batch the metadata stage returns, as values. *)
Lemma Metadata_ProcessMessage_values conf p msg h :
  NewMetadata conf = inl p → allocated h msg →
  let o := Metadata_ProcessMessage p msg h in
  out_msgs o = [(Message_Copy msg h).1] ∧
  contents (out_heap o) (Message_Copy msg h).1
  = edit_batch (Parts conf) (Operator conf) (Key conf)
      (resolved_value conf (contents h msg)) (contents h msg).
Proof.
  intros Hnew Ha.
  destruct (Metadata_ProcessMessage_char conf p msg h Hnew Ha)
    as (Hmsgs & _ & _ & _ & Hedit).
  cbv zeta in *. split; [done|].
  pose proof (Message_Copy_length msg h) as Hlen.
  apply list_eq. intros k. rewrite edit_batch_lookup.
  unfold contents in *. rewrite !list_lookup_fmap, length_fmap.
  destruct (msg !! k) as [l|] eqn:Hl.
  - destruct (lookup_lt_is_Some_2 (Message_Copy msg h).1 k) as [c Hc].
    { rewrite Hlen. by eapply lookup_lt_Some. }
    rewrite Hc. simpl. rewrite (Hedit k l c Hl Hc). reflexivity.
  - rewrite lookup_ge_None_2; [done|].
    rewrite Hlen. by apply lookup_ge_None_1.
Qed.

(** X16. The metadata stage never changes a payload: the parts of the batch
    it returns carry, position by position, the payloads of the parts of
    the batch it was given. *)
Theorem metadata_keeps_payloads (conf : MetadataConfig) (p : Metadata)
    (msg : Message) (h : heap) :
  NewMetadata conf = inl p → allocated h msg →
  let o := Metadata_ProcessMessage p msg h in
  (λ newMsg, part_data <$> contents (out_heap o) newMsg) <$> out_msgs o
  = [part_data <$> contents h msg].
Proof.
  intros Hnew Ha.
  destruct (Metadata_ProcessMessage_values conf p msg h Hnew Ha)
    as [Hmsgs Hvals].
  cbv zeta in *. rewrite Hmsgs. csimpl. rewrite Hvals.
  by rewrite edit_batch_data.
Qed.

(** X17. Without dynamic substitutions in its value, the metadata stage is
    idempotent: run on the batch it returned, it returns a batch of the
    same payloads and metadata. *)
Theorem metadata_stage_idempotent (conf : MetadataConfig) (p : Metadata)
    (msg : Message) (h : heap) :
  NewMetadata conf = inl p → allocated h msg →
  ContainsFunctionVariables (Value conf) = false →
  let o1 := Metadata_ProcessMessage p msg h in
  let o2 := Metadata_ProcessMessage p (Message_Copy msg h).1 (out_heap o1) in
  contents (out_heap o2) <$> out_msgs o2
  = contents (out_heap o1) <$> out_msgs o1.
Proof.
  intros Hnew Ha Hplain. cbv zeta.
  destruct (Metadata_ProcessMessage_values conf p msg h Hnew Ha)
    as [Hmsgs1 Hvals1].
  destruct (Metadata_ProcessMessage_frame p msg h) as (_ & _ & Ha1 & _).
  cbv zeta in *.
  destruct (Metadata_ProcessMessage_values conf p (Message_Copy msg h).1
              (out_heap (Metadata_ProcessMessage p msg h)) Hnew Ha1)
    as [Hmsgs2 Hvals2].
  cbv zeta in *. rewrite Hmsgs1, Hmsgs2. csimpl. f_equal.
  rewrite Hvals2, Hvals1. unfold resolved_value. rewrite Hplain.
  apply edit_batch_idemp.
Qed.
End metadata_values.

(** ** Construction of a [GroupBy] *)

Section construction_properties.
Context {builders : Builders}.

Lemma build_processors_inl pConfs i : ∀ j procs built,
  build_processors pConfs i j procs = inl built →
  ∃ new, built = procs ++ new ∧
    Forall2 (λ pConf proc, processor_New pConf (groupPrefix i) = inl proc)
      pConfs new.
Proof.
  induction pConfs as [|pConf pConfs IH]; intros j procs built; simpl.
  - intros [= <-]. exists []. by rewrite app_nil_r.
  - destruct (processor_New pConf (groupPrefix i)) as [proc|err] eqn:Hp;
      [|done].
    intros (new & -> & Hnew)%IH. exists (proc :: new).
    rewrite <- app_assoc. split; [done|]. by constructor.
Qed.

Lemma build_processors_builds pConfs i : ∀ j procs,
  (∀ pConf, pConf ∈ pConfs →
     ∃ proc, processor_New pConf (groupPrefix i) = inl proc) →
  ∃ built, build_processors pConfs i j procs = inl built.
Proof.
  induction pConfs as [|pConf pConfs IH]; intros j procs Hall; simpl.
  - by eexists.
  - destruct (Hall pConf (list_elem_of_here _ _)) as [proc ->].
    apply IH. intros q Hq. apply Hall. by right.
Qed.

Lemma build_processors_inr pConfs i : ∀ j procs n pConf err,
  pConfs !! n = Some pConf →
  (∀ n' pConf', n' < n → pConfs !! n' = Some pConf' →
     ∃ proc, processor_New pConf' (groupPrefix i) = inl proc) →
  processor_New pConf (groupPrefix i) = inr err →
  build_processors pConfs i j procs
  = inr ("failed to create processor '" +:+ pretty (j + n)
         +:+ "' for group '" +:+ pretty i +:+ "': " +:+ err).
Proof.
  induction pConfs as [|pConf0 pConfs IH];
    intros j procs n pConf err Hn Hbefore Herr; [done|].
  destruct n as [|n]; cbn [build_processors].
  - injection Hn as ->. rewrite Herr. by rewrite Nat.add_0_r.
  - destruct (Hbefore 0 pConf0 ltac:(lia) eq_refl) as [proc ->].
    rewrite (IH (S j) (procs ++ [proc]) n pConf err Hn); [|..|done].
    + by replace (S j + n) with (j + S n) by lia.
    + intros n' pConf' Hlt Hl. apply (Hbefore (S n') pConf'); [lia|done].
Qed.

Lemma build_groups_inl gConfs : ∀ i gs,
  build_groups gConfs i = inl gs →
  length gs = length gConfs ∧
  ∀ n gConf grp, gConfs !! n = Some gConf → gs !! n = Some grp →
    built_from (i + n) gConf grp.
Proof.
  induction gConfs as [|gConf0 gConfs IH]; intros i gs; cbn [build_groups].
  - intros [= <-]. split; [done|]. by intros n gConf grp.
  - destruct (condition_New _ _) as [cond|err] eqn:Hc; [|done].
    destruct (build_processors _ i 0 []) as [procs|err] eqn:Hp; [|done].
    destruct (build_groups gConfs (S i)) as [gs'|err] eqn:Hg; [|done].
    intros [= <-]. destruct (IH (S i) gs' Hg) as [Hlen Hbuilt].
    split; [simpl; by rewrite Hlen|].
    intros [|n] gConf grp; simpl.
    + intros [= <-] [= <-]. rewrite Nat.add_0_r. split; [done|].
      apply build_processors_inl in Hp as (new & -> & Hnew). done.
    + intros Hn Hgr. replace (i + S n) with (S i + n) by lia.
      by apply Hbuilt.
Qed.

Lemma build_groups_builds gConfs : ∀ i,
  (∀ n gConf, gConfs !! n = Some gConf → builds (i + n) gConf) →
  ∃ gs, build_groups gConfs i = inl gs.
Proof.
  induction gConfs as [|gConf0 gConfs IH]; intros i Hall;
    cbn [build_groups]; [by eexists|].
  destruct (Hall 0 gConf0 eq_refl) as [[cond Hc] Hp].
  rewrite Nat.add_0_r in Hc, Hp. rewrite Hc.
  destruct (build_processors_builds (conf_Processors gConf0) i 0 [] Hp)
    as [procs ->].
  destruct (IH (S i)) as [gs ->]; [|by eexists].
  intros n gConf Hn. replace (S i + n) with (i + S n) by lia.
  by apply Hall.
Qed.

Lemma built_from_builds i gConf grp : built_from i gConf grp → builds i gConf.
Proof.
  intros [Hc Hp]. split; [by eexists|].
  intros pConf [k Hk]%list_elem_of_lookup.
  destruct (Forall2_lookup_l _ _ _ _ _ Hp Hk) as (proc & _ & Hproc).
  by eexists.
Qed.

Lemma builds_before gConfs i n :
  (∀ n' gConf', n' < n → gConfs !! n' = Some gConf' → builds (i + n') gConf') →
  ∀ gConf0 gConfs', gConfs = gConf0 :: gConfs' → 0 < n →
  builds i gConf0.
Proof.
  intros Hbefore gConf0 gConfs' -> Hn.
  specialize (Hbefore 0 gConf0 Hn eq_refl). by rewrite Nat.add_0_r in Hbefore.
Qed.

Lemma build_groups_condition_fails gConfs : ∀ i n gConf err,
  gConfs !! n = Some gConf →
  (∀ n' gConf', n' < n → gConfs !! n' = Some gConf' → builds (i + n') gConf') →
  condition_New (conf_Condition gConf) (groupPrefix (i + n)) = inr err →
  build_groups gConfs i
  = inr ("failed to create condition for group '" +:+ pretty (i + n)
         +:+ "': " +:+ err).
Proof.
  induction gConfs as [|gConf0 gConfs IH]; intros i n gConf err Hn Hbefore Herr;
    [done|].
  destruct n as [|n]; cbn [build_groups].
  - injection Hn as ->. rewrite Nat.add_0_r in Herr. rewrite Herr.
    by rewrite Nat.add_0_r.
  - destruct (builds_before _ i (S n) Hbefore gConf0 gConfs eq_refl
                ltac:(lia)) as [[cond ->] Hp].
    destruct (build_processors_builds (conf_Processors gConf0) i 0 [] Hp)
      as [procs ->].
    rewrite (IH (S i) n gConf err Hn).
    + by replace (S i + n) with (i + S n) by lia.
    + intros n' gConf' Hlt Hl. replace (S i + n') with (i + S n') by lia.
      apply Hbefore; [lia|done].
    + by replace (S i + n) with (i + S n) by lia.
Qed.

Lemma build_groups_processor_fails gConfs : ∀ i n gConf cond j pConf err,
  gConfs !! n = Some gConf →
  (∀ n' gConf', n' < n → gConfs !! n' = Some gConf' → builds (i + n') gConf') →
  condition_New (conf_Condition gConf) (groupPrefix (i + n)) = inl cond →
  conf_Processors gConf !! j = Some pConf →
  (∀ j' pConf', j' < j → conf_Processors gConf !! j' = Some pConf' →
     ∃ proc, processor_New pConf' (groupPrefix (i + n)) = inl proc) →
  processor_New pConf (groupPrefix (i + n)) = inr err →
  build_groups gConfs i
  = inr ("failed to create processor '" +:+ pretty j
         +:+ "' for group '" +:+ pretty (i + n) +:+ "': " +:+ err).
Proof.
  induction gConfs as [|gConf0 gConfs IH];
    intros i n gConf cond j pConf err Hn Hbefore Hc Hj Hjbefore Herr; [done|].
  destruct n as [|n]; cbn [build_groups].
  - injection Hn as ->. rewrite Nat.add_0_r in *. rewrite Hc.
    by rewrite (build_processors_inr _ i 0 [] j pConf err Hj Hjbefore Herr).
  - destruct (builds_before _ i (S n) Hbefore gConf0 gConfs eq_refl
                ltac:(lia)) as [[cond0 ->] Hp].
    destruct (build_processors_builds (conf_Processors gConf0) i 0 [] Hp)
      as [procs ->].
    rewrite (IH (S i) n gConf cond j pConf err Hn).
    + by replace (S i + n) with (i + S n) by lia.
    + intros n' gConf' Hlt Hl. replace (S i + n') with (i + S n') by lia.
      apply Hbefore; [lia|done].
    + by replace (S i + n) with (i + S n) by lia.
    + done.
    + by replace (S i + n) with (i + S n) by lia.
    + by replace (S i + n) with (i + S n) by lia.
Qed.
End construction_properties.

Section construction_theorems.
Context {builders : Builders}.

(** X18. A [GroupBy] that is built has one group per element of the
    configuration, in order: group [n] holds the condition built from the
    condition of element [n] and, in order, the stages built from its stage
    configurations, all in the namespace of position [n]. *)
Theorem NewGroupBy_shape (conf : GroupByConfig) (g : GroupBy) :
  NewGroupBy conf = inl g →
  length (groups g) = length conf ∧
  ∀ n gConf grp, conf !! n = Some gConf → groups g !! n = Some grp →
    built_from n gConf grp ∧
    length (Processors grp) = length (conf_Processors gConf).
Proof.
  unfold NewGroupBy. destruct (build_groups conf 0) as [gs|err] eqn:Hg; [|done].
  intros [= <-]. destruct (build_groups_inl conf 0 gs Hg) as [Hlen Hbuilt].
  split; [done|]. intros n gConf grp Hn Hgr.
  pose proof (Hbuilt n gConf grp Hn Hgr) as Hb. split; [done|].
  destruct Hb as [_ Hp]. symmetry. by eapply Forall2_length.
Qed.

(** X19. There is no partial construction: a [GroupBy] is built exactly
    when the condition and every stage of every element build. *)
Theorem NewGroupBy_succeeds_iff (conf : GroupByConfig) :
  (∃ g, NewGroupBy conf = inl g)
  ↔ ∀ n gConf, conf !! n = Some gConf → builds n gConf.
Proof.
  unfold NewGroupBy. split.
  - intros [g Hg] n gConf Hn.
    destruct (build_groups conf 0) as [gs|err] eqn:Hb; [|done].
    destruct (build_groups_inl conf 0 gs Hb) as [Hlen Hbuilt].
    destruct (lookup_lt_is_Some_2 gs n) as [grp Hgrp].
    { rewrite Hlen. by eapply lookup_lt_Some. }
    by apply (built_from_builds n gConf grp), (Hbuilt n gConf grp).
  - intros Hall. destruct (build_groups_builds conf 0 Hall) as [gs ->].
    by eexists.
Qed.

(** X20. The first condition that does not build fails the construction:
    when every element before element [n] builds and the condition of
    element [n] fails, the error is the one of that condition, with the
    index of the group. *)
Theorem NewGroupBy_condition_error (conf : GroupByConfig) (n : nat)
    (gConf : GroupByElement) (err : string) :
  conf !! n = Some gConf →
  (∀ n' gConf', n' < n → conf !! n' = Some gConf' → builds n' gConf') →
  condition_New (conf_Condition gConf) (groupPrefix n) = inr err →
  NewGroupBy conf
  = inr ("failed to create condition for group '" +:+ pretty n
         +:+ "': " +:+ err).
Proof.
  intros Hn Hbefore Herr. unfold NewGroupBy.
  by rewrite (build_groups_condition_fails conf 0 n gConf err Hn Hbefore Herr).
Qed.

(** X21. The first stage that does not build fails the construction: when
    every element before element [n] builds, the condition of element [n]
    and its stages before stage [j] build, and stage [j] fails, the error
    is the one of that stage, with the indexes of the stage and of the
    group. *)
Theorem NewGroupBy_processor_error (conf : GroupByConfig) (n j : nat)
    (gConf : GroupByElement) (cond : LockedMessage → bool)
    (pConf : ProcessorConfig) (err : string) :
  conf !! n = Some gConf →
  (∀ n' gConf', n' < n → conf !! n' = Some gConf' → builds n' gConf') →
  condition_New (conf_Condition gConf) (groupPrefix n) = inl cond →
  conf_Processors gConf !! j = Some pConf →
  (∀ j' pConf', j' < j → conf_Processors gConf !! j' = Some pConf' →
     ∃ proc, processor_New pConf' (groupPrefix n) = inl proc) →
  processor_New pConf (groupPrefix n) = inr err →
  NewGroupBy conf
  = inr ("failed to create processor '" +:+ pretty j
         +:+ "' for group '" +:+ pretty n +:+ "': " +:+ err).
Proof.
  intros Hn Hbefore Hc Hj Hjbefore Herr. unfold NewGroupBy.
  by rewrite (build_groups_processor_fails conf 0 n gConf cond j pConf err
                Hn Hbefore Hc Hj Hjbefore Herr).
Qed.
End construction_theorems.

(** ** The further properties on concrete batches and configurations *)

Lemma stamp_preserving key value : preserving (stamp key value).
Proof. intros m h. by exists m. Qed.

Lemma failing_preserving : preserving failing.
Proof. intros m h. by exists m. Qed.

Lemma stamp_quiet key value : quiet (stamp key value).
Proof. by intros m h. Qed.

Lemma overlapping_groups_preserving : preserving_stages overlapping_groups.
Proof.
  intros grp proc Hg Hp. unfold overlapping_groups in Hg. cbn [groups] in Hg.
  repeat (apply elem_of_cons in Hg as [->|Hg]); cbn [Processors] in Hp.
  - apply list_elem_of_singleton in Hp as ->. apply stamp_preserving.
  - apply elem_of_cons in Hp as [->|Hp]; [apply stamp_preserving|].
    apply list_elem_of_singleton in Hp as ->. apply failing_preserving.
  - by apply elem_of_nil in Hg.
Qed.

Lemma scenario_metadata_stages :
  metadata_stages (text := plain_text) scenario_groups.
Proof.
  intros grp proc Hg Hp. unfold scenario_groups in Hg. cbn [groups] in Hg.
  apply list_elem_of_singleton in Hg as ->. cbn [Processors] in Hp.
  apply list_elem_of_singleton in Hp as ->. by eexists.
Qed.

Lemma scenario_unmatched i :
  i < length scenario_msg →
  no_match (groups unmatched_groups) (Lock scenario_heap scenario_msg i).
Proof.
  intros Hi [|k] grp Hk; [|done]. injection Hk as <-.
  destruct i as [|[|[|i]]]; [vm_compute; reflexivity..|simpl in Hi; lia].
Qed.

Lemma unmatched_batch_forwarded_whole_witness :
  allocated scenario_heap scenario_msg ∧ scenario_msg ≠ [] ∧
  (∀ i, i < length scenario_msg →
     no_match (groups unmatched_groups)
       (Lock scenario_heap scenario_msg i)) ∧
  let o := ProcessMessage unmatched_groups scenario_msg scenario_heap in
  out_msgs o = [(Message_Copy scenario_msg scenario_heap).1] ∧
  out_res o = None ∧ out_log o = [] ∧
  out_heap o = (Message_Copy scenario_msg scenario_heap).2 ∧
  contents (out_heap o) (Message_Copy scenario_msg scenario_heap).1
  = contents scenario_heap scenario_msg.
Proof.
  split; [exact scenario_allocated|]. split; [discriminate|].
  split; [exact scenario_unmatched|].
  apply (unmatched_batch_forwarded_whole unmatched_groups scenario_msg
           scenario_heap).
  - exact scenario_allocated.
  - discriminate.
  - exact scenario_unmatched.
Defined.

Lemma scenario_catch_all i :
  i < length scenario_msg →
  Condition (mkGroup static_true []) (Lock scenario_heap scenario_msg i)
  = true.
Proof. done. Qed.

Lemma catch_all_shadows_witness :
  allocated scenario_heap scenario_msg ∧
  groups shadowing_groups !! 0 = Some (mkGroup static_true []) ∧
  (∀ i, i < length scenario_msg →
     Condition (mkGroup static_true [])
       (Lock scenario_heap scenario_msg i) = true) ∧
  let p := partition shadowing_groups scenario_msg scenario_heap in
  p.1.2 = [] ∧
  ∀ k' m, 0 < k' → p.1.1 !! k' = Some m → m = [].
Proof.
  split; [exact scenario_allocated|]. split; [reflexivity|].
  split; [exact scenario_catch_all|].
  apply (catch_all_shadows shadowing_groups scenario_msg scenario_heap 0
           (mkGroup static_true [])).
  - exact scenario_allocated.
  - reflexivity.
  - exact scenario_catch_all.
Defined.

Lemma preserving_stages_lose_nothing_witness :
  preserving_stages overlapping_groups ∧
  let o := ProcessMessage overlapping_groups scenario_msg scenario_heap in
  let p := partition overlapping_groups scenario_msg scenario_heap in
  length <$> out_msgs o = length <$> (non_empty p.1.1 ++ residual p.1.2) ∧
  sum_list (length <$> out_msgs o) = length scenario_msg ∧
  (scenario_msg ≠ [] → out_res o = None).
Proof.
  split; [exact overlapping_groups_preserving|].
  apply (preserving_stages_lose_nothing overlapping_groups scenario_msg
           scenario_heap).
  exact overlapping_groups_preserving.
Defined.

Lemma bare_groups_bare grp : grp ∈ groups bare_groups → Processors grp = [].
Proof.
  unfold bare_groups. cbn [groups]. intros Hg.
  repeat (apply elem_of_cons in Hg as [->|Hg]); [done..|].
  by apply elem_of_nil in Hg.
Qed.

Lemma bare_groups_only_split_witness :
  (∀ grp, grp ∈ groups bare_groups → Processors grp = []) ∧
  let o := ProcessMessage bare_groups scenario_msg scenario_heap in
  let p := partition bare_groups scenario_msg scenario_heap in
  out_msgs o = non_empty p.1.1 ++ residual p.1.2 ∧
  out_heap o = p.2 ∧ out_log o = [].
Proof.
  split; [exact bare_groups_bare|].
  apply (bare_groups_only_split bare_groups scenario_msg scenario_heap).
  exact bare_groups_bare.
Defined.

Lemma earlier_errors_not_logged_witness :
  groups recovering_groups !! 0
  = Some (mkGroup static_true [failing; stamp "grouping" "any"]) ∧
  Processors (mkGroup static_true [failing; stamp "grouping" "any"])
  = [failing] ++ [stamp "grouping" "any"] ∧
  quiet (stamp "grouping" "any") ∧
  scenario_msg ≠ [] ∧
  (chain_fold [failing] scenario_msg scenario_heap).1 ≠ [] ∧
  (process_group recovering_groups 0 scenario_msg ([], scenario_heap, [])).2
  = [].
Proof.
  split; [reflexivity|]. split; [reflexivity|].
  split; [exact (stamp_quiet "grouping" "any")|].
  split; [discriminate|]. split; [discriminate|].
  apply (earlier_errors_not_logged recovering_groups 0
           (mkGroup static_true [failing; stamp "grouping" "any"])
           [failing] (stamp "grouping" "any") scenario_msg [] scenario_heap
           []).
  - reflexivity.
  - reflexivity.
  - exact (stamp_quiet "grouping" "any").
  - discriminate.
  - discriminate.
Defined.

Lemma quiet_stages_log_nothing_witness :
  quiet_stages scenario_groups ∧
  out_log (ProcessMessage scenario_groups scenario_msg scenario_heap) = [].
Proof.
  split; [exact (metadata_stages_quiet scenario_groups
                   scenario_metadata_stages)|].
  apply (quiet_stages_log_nothing scenario_groups scenario_msg scenario_heap).
  exact (metadata_stages_quiet scenario_groups scenario_metadata_stages).
Defined.

Lemma metadata_groups_lose_nothing_witness :
  metadata_stages (text := plain_text) scenario_groups ∧
  let o := ProcessMessage scenario_groups scenario_msg scenario_heap in
  sum_list (length <$> out_msgs o) = length scenario_msg ∧
  (scenario_msg ≠ [] → out_res o = None) ∧
  out_log o = [] ∧
  (∀ l, l ∈ dom scenario_heap → out_heap o !! l = scenario_heap !! l).
Proof.
  split; [exact scenario_metadata_stages|].
  apply (metadata_groups_lose_nothing (text := plain_text) scenario_groups
           scenario_msg scenario_heap).
  exact scenario_metadata_stages.
Defined.

Lemma metadata_keeps_payloads_witness :
  NewMetadata (text := first_part_text) resolved_conf = inl resolved_stage ∧
  allocated tagged_heap scenario_msg ∧
  let o := Metadata_ProcessMessage (text := first_part_text) resolved_stage
             scenario_msg tagged_heap in
  (λ newMsg, part_data <$> contents (out_heap o) newMsg) <$> out_msgs o
  = [part_data <$> contents tagged_heap scenario_msg].
Proof.
  split; [reflexivity|]. split; [exact tagged_allocated|].
  apply (metadata_keeps_payloads (text := first_part_text) resolved_conf
           resolved_stage scenario_msg tagged_heap).
  - reflexivity.
  - exact tagged_allocated.
Defined.

Lemma metadata_stage_idempotent_witness :
  NewMetadata (text := plain_text) set_grouping_conf = inl set_grouping ∧
  allocated scenario_heap scenario_msg ∧
  ContainsFunctionVariables (Text := plain_text) (Value set_grouping_conf)
  = false ∧
  let o1 := Metadata_ProcessMessage (text := plain_text) set_grouping
              scenario_msg scenario_heap in
  let o2 := Metadata_ProcessMessage (text := plain_text) set_grouping
              (Message_Copy scenario_msg scenario_heap).1 (out_heap o1) in
  contents (out_heap o2) <$> out_msgs o2
  = contents (out_heap o1) <$> out_msgs o1.
Proof.
  split; [reflexivity|]. split; [exact scenario_allocated|].
  split; [reflexivity|].
  apply (metadata_stage_idempotent (text := plain_text) set_grouping_conf
           set_grouping scenario_msg scenario_heap).
  - reflexivity.
  - exact scenario_allocated.
  - reflexivity.
Defined.

Lemma good_config_builds :
  NewGroupBy (builders := text_builders) good_config = inl good_groups.
Proof. vm_compute. reflexivity. Qed.

Lemma NewGroupBy_shape_witness :
  NewGroupBy (builders := text_builders) good_config = inl good_groups ∧
  length (groups good_groups) = length good_config ∧
  ∀ n gConf grp,
    good_config !! n = Some gConf → groups good_groups !! n = Some grp →
    built_from (builders := text_builders) n gConf grp ∧
    length (Processors grp) = length (conf_Processors gConf).
Proof.
  split; [exact good_config_builds|].
  apply (NewGroupBy_shape (builders := text_builders) good_config
           good_groups).
  exact good_config_builds.
Defined.

Lemma first_element_builds (rest : GroupByConfig (builders := text_builders))
    n' gConf' :
  n' < 1 →
  (mkGroupByElement (builders := text_builders) "foo" [set_grouping_conf]
     :: rest) !! n' = Some gConf' →
  builds (builders := text_builders) n' gConf'.
Proof.
  intros Hlt Hl. destruct n' as [|n']; [|lia]. injection Hl as <-.
  split; [by eexists|].
  intros pConf ->%list_elem_of_singleton. by eexists.
Qed.

Lemma NewGroupBy_condition_error_witness :
  bad_condition_config !! 1
  = Some (mkGroupByElement (builders := text_builders) "" [bogus_conf]) ∧
  (∀ n' gConf', n' < 1 → bad_condition_config !! n' = Some gConf' →
     builds (builders := text_builders) n' gConf') ∧
  condition_New (Builders := text_builders) "" (groupPrefix 1)
  = inr "empty argument" ∧
  NewGroupBy (builders := text_builders) bad_condition_config
  = inr ("failed to create condition for group '" +:+ pretty 1
         +:+ "': " +:+ "empty argument").
Proof.
  split; [reflexivity|]. split; [exact (first_element_builds _)|].
  split; [reflexivity|].
  apply (NewGroupBy_condition_error (builders := text_builders)
           bad_condition_config 1
           (mkGroupByElement (builders := text_builders) "" [bogus_conf])
           "empty argument").
  - reflexivity.
  - exact (first_element_builds _).
  - reflexivity.
Defined.

Lemma first_stage_builds j' pConf' :
  j' < 1 → [set_grouping_conf; bogus_conf] !! j' = Some pConf' →
  ∃ proc, processor_New (Builders := text_builders) pConf' (groupPrefix 1)
          = inl proc.
Proof.
  intros Hlt Hl. destruct j' as [|j']; [|lia]. injection Hl as <-.
  by eexists.
Qed.

Lemma NewGroupBy_processor_error_witness :
  bad_stage_config !! 1
  = Some (mkGroupByElement (builders := text_builders) "bar"
            [set_grouping_conf; bogus_conf]) ∧
  (∀ n' gConf', n' < 1 → bad_stage_config !! n' = Some gConf' →
     builds (builders := text_builders) n' gConf') ∧
  condition_New (Builders := text_builders) "bar" (groupPrefix 1)
  = inl (text_contains "bar") ∧
  [set_grouping_conf; bogus_conf] !! 1 = Some bogus_conf ∧
  (∀ j' pConf', j' < 1 →
     [set_grouping_conf; bogus_conf] !! j' = Some pConf' →
     ∃ proc, processor_New (Builders := text_builders) pConf' (groupPrefix 1)
             = inl proc) ∧
  processor_New (Builders := text_builders) bogus_conf (groupPrefix 1)
  = inr "operator not recognised: bogus" ∧
  NewGroupBy (builders := text_builders) bad_stage_config
  = inr ("failed to create processor '" +:+ pretty 1
         +:+ "' for group '" +:+ pretty 1 +:+ "': "
         +:+ "operator not recognised: bogus").
Proof.
  split; [reflexivity|]. split; [exact (first_element_builds _)|].
  split; [reflexivity|]. split; [reflexivity|].
  split; [exact first_stage_builds|]. split; [reflexivity|].
  apply (NewGroupBy_processor_error (builders := text_builders)
           bad_stage_config 1 1
           (mkGroupByElement (builders := text_builders) "bar"
              [set_grouping_conf; bogus_conf])
           (text_contains "bar") bogus_conf
           "operator not recognised: bogus").
  - reflexivity.
  - exact (first_element_builds _).
  - reflexivity.
  - reflexivity.
  - exact first_stage_builds.
  - reflexivity.
Defined.

(** ** Sanitised configuration *)

Section sanitise_properties.
Context {builders : Builders} {sanitisers : Sanitisers}.

Lemma sanitise_processors_inl pConfs : ∀ acc out,
  sanitise_processors pConfs acc = inl out →
  ∃ new, out = acc ++ new ∧
    Forall2 (λ p procSanit, SanitiseConfig p = inl procSanit) pConfs new.
Proof.
  induction pConfs as [|p pConfs IH]; intros acc out; simpl.
  - intros [= <-]. exists []. by rewrite app_nil_r.
  - destruct (SanitiseConfig p) as [s|err] eqn:Hs; [|done].
    intros (new & -> & Hnew)%IH. exists (s :: new).
    rewrite <- app_assoc. split; [done|]. by constructor.
Qed.

Lemma sanitise_processors_inr pConfs : ∀ acc err,
  sanitise_processors pConfs acc = inr err →
  ∃ p, p ∈ pConfs ∧ SanitiseConfig p = inr err.
Proof.
  induction pConfs as [|p pConfs IH]; intros acc err; simpl; [done|].
  destruct (SanitiseConfig p) as [s|err'] eqn:Hs.
  - intros (q & Hq & Herr)%IH. exists q. split; [by right|done].
  - intros [= <-]. exists p. split; [left|done].
Qed.

Lemma sanitise_groups_inl gConfs : ∀ acc out,
  sanitise_groups gConfs acc = inl out →
  ∃ new, out = acc ++ new ∧ Forall2 sanitised_from gConfs new.
Proof.
  induction gConfs as [|g gConfs IH]; intros acc out; cbn [sanitise_groups].
  - intros [= <-]. exists []. by rewrite app_nil_r.
  - destruct (condition_SanitiseConfig _) as [c|err] eqn:Hc; [|done].
    destruct (sanitise_processors _ []) as [ps|err] eqn:Hp; [|done].
    intros (new & -> & Hnew)%IH. eexists (_ :: new).
    rewrite <- app_assoc. split; [done|]. constructor; [|done].
    exists c, ps. split; [done|]. split; [done|].
    by apply sanitise_processors_inl in Hp as (new' & -> & Hnew').
Qed.

Lemma sanitise_groups_inr gConfs : ∀ acc err,
  sanitise_groups gConfs acc = inr err →
  ∃ g, g ∈ gConfs ∧
    (condition_SanitiseConfig (conf_Condition g) = inr err ∨
     ∃ p, p ∈ conf_Processors g ∧ SanitiseConfig p = inr err).
Proof.
  induction gConfs as [|g gConfs IH]; intros acc err; cbn [sanitise_groups];
    [done|].
  destruct (condition_SanitiseConfig _) as [c|err'] eqn:Hc.
  - destruct (sanitise_processors _ []) as [ps|err''] eqn:Hp.
    + intros (g' & Hg' & Herr)%IH. exists g'. split; [by right|done].
    + intros [= <-]. exists g. split; [left|]. right.
      by apply sanitise_processors_inr in Hp.
  - intros [= <-]. exists g. split; [left|]. by left.
Qed.

(** X22. A configuration that sanitises gives a list with one map per
    group, in order; the map of a group has exactly the keys condition and
    processors, the first with the sanitised condition, the second with the
    list of the sanitised stages, in order. *)
Theorem sanitised_config_shape (conf : GroupByConfig) (s : sanitised) :
  sanitiseConfigFunc conf = inl s →
  ∃ entries, s = SanitList entries ∧
    Forall2 sanitised_from conf entries ∧
    ∀ entry, entry ∈ entries →
      ∃ m, entry = SanitMap m ∧ dom m = {["condition"; "processors"]}.
Proof.
  unfold sanitiseConfigFunc.
  destruct (sanitise_groups conf []) as [out|err] eqn:Hs; [|done].
  intros [= <-]. apply sanitise_groups_inl in Hs as (new & -> & Hnew).
  exists new. split; [done|]. split; [done|].
  intros entry [k Hk]%list_elem_of_lookup.
  destruct (Forall2_lookup_r _ _ _ _ _ Hnew Hk) as (g & _ & c & ps & -> & _).
  eexists. split; [done|]. rewrite !dom_insert_L. set_solver.
Qed.

(** X23. An error of the sanitising is an error of a sanitiser, handed on
    as it is: some condition or some stage of the configuration fails to
    sanitise with that very error. *)
Theorem sanitised_config_error (conf : GroupByConfig) (err : string) :
  sanitiseConfigFunc conf = inr err →
  ∃ g, g ∈ conf ∧
    (condition_SanitiseConfig (conf_Condition g) = inr err ∨
     ∃ p, p ∈ conf_Processors g ∧ SanitiseConfig p = inr err).
Proof.
  unfold sanitiseConfigFunc.
  destruct (sanitise_groups conf []) as [out|err'] eqn:Hs; [done|].
  intros [= <-]. by apply sanitise_groups_inr in Hs.
Qed.
End sanitise_properties.

Lemma good_config_sanitises :
  sanitiseConfigFunc (sanitisers := text_sanitisers) good_config
  = inl good_sanitised.
Proof. vm_compute. reflexivity. Qed.

Lemma sanitised_config_shape_witness :
  sanitiseConfigFunc (sanitisers := text_sanitisers) good_config
  = inl good_sanitised ∧
  ∃ entries, good_sanitised = SanitList entries ∧
    Forall2 (sanitised_from (sanitisers := text_sanitisers)) good_config
      entries ∧
    ∀ entry, entry ∈ entries →
      ∃ m, entry = SanitMap m ∧ dom m = {["condition"; "processors"]}.
Proof.
  split; [exact good_config_sanitises|].
  apply (sanitised_config_shape (sanitisers := text_sanitisers) good_config
           good_sanitised).
  exact good_config_sanitises.
Defined.

Lemma bad_stage_config_sanitises :
  sanitiseConfigFunc (sanitisers := text_sanitisers) bad_stage_config
  = inr "operator not recognised: bogus".
Proof. vm_compute. reflexivity. Qed.

Lemma sanitised_config_error_witness :
  sanitiseConfigFunc (sanitisers := text_sanitisers) bad_stage_config
  = inr "operator not recognised: bogus" ∧
  ∃ g, g ∈ bad_stage_config ∧
    (condition_SanitiseConfig (Sanitisers := text_sanitisers)
       (conf_Condition g) = inr "operator not recognised: bogus" ∨
     ∃ p, p ∈ conf_Processors g ∧
       SanitiseConfig (Sanitisers := text_sanitisers) p
       = inr "operator not recognised: bogus").
Proof.
  split; [exact bad_stage_config_sanitises|].
  apply (sanitised_config_error (sanitisers := text_sanitisers)
           bad_stage_config "operator not recognised: bogus").
  exact bad_stage_config_sanitises.
Defined.

(** ** Default configuration, and whole batches *)

Section defaults.
Context {builders : Builders}.

(** X24. The default configuration has no group and always builds; the
    [GroupBy] it builds hands every batch that has parts on whole, as one
    batch of the duplicates of its parts in order, with the nil
    response. *)
Theorem default_config_passes_batches (msg : Message) (h : heap) :
  allocated h msg → msg ≠ [] →
  ∃ g, NewGroupBy NewGroupByConfig = inl g ∧ groups g = [] ∧
    out_msgs (ProcessMessage g msg h) = [(Message_Copy msg h).1] ∧
    out_res (ProcessMessage g msg h) = None ∧
    contents (out_heap (ProcessMessage g msg h)) (Message_Copy msg h).1
    = contents h msg.
Proof.
  intros Ha Hne. exists (mkGroupBy []). split; [done|]. split; [done|].
  destruct (unmatched_forwarded (mkGroupBy []) msg h Ha Hne)
    as (Hmsgs & Hres & _ & _ & Hcont).
  - by intros i _ k grp.
  - done.
Qed.
End defaults.

Lemma default_config_passes_batches_witness :
  allocated scenario_heap scenario_msg ∧ scenario_msg ≠ [] ∧
  ∃ g, NewGroupBy (builders := text_builders) NewGroupByConfig = inl g ∧
    groups g = [] ∧
    out_msgs (ProcessMessage g scenario_msg scenario_heap)
    = [(Message_Copy scenario_msg scenario_heap).1] ∧
    out_res (ProcessMessage g scenario_msg scenario_heap) = None ∧
    contents (out_heap (ProcessMessage g scenario_msg scenario_heap))
      (Message_Copy scenario_msg scenario_heap).1
    = contents scenario_heap scenario_msg.
Proof.
  split; [exact scenario_allocated|]. split; [discriminate|].
  apply (default_config_passes_batches (builders := text_builders)
           scenario_msg scenario_heap).
  - exact scenario_allocated.
  - discriminate.
Defined.

Section whole_batch.
Context {text : Text}.

(** X25. With the operator delete_all and the default index subset, the
    metadata stage returns the batch it was given with no metadata left on
    any part, payloads and order kept. *)
Theorem delete_all_clears_batch (conf : MetadataConfig) (p : Metadata)
    (msg : Message) (h : heap) :
  NewMetadata conf = inl p → allocated h msg →
  Operator conf = "delete_all" → Parts conf = [] →
  let o := Metadata_ProcessMessage p msg h in
  contents (out_heap o) <$> out_msgs o
  = [(λ part, mkPart (part_data part) ∅) <$> contents h msg].
Proof.
  intros Hnew Ha Hop Hparts.
  destruct (Metadata_ProcessMessage_values conf p msg h Hnew Ha)
    as [Hmsgs Hvals].
  cbv zeta in *. rewrite Hmsgs. csimpl. rewrite Hvals, Hop, Hparts.
  f_equal. apply list_eq. intros k.
  rewrite edit_batch_lookup, list_lookup_fmap.
  by destruct (contents h msg !! k).
Qed.
End whole_batch.

Lemma delete_all_clears_batch_witness :
  NewMetadata (text := plain_text) delete_all_conf = inl delete_all_stage ∧
  allocated tagged_heap scenario_msg ∧
  Operator delete_all_conf = "delete_all" ∧ Parts delete_all_conf = [] ∧
  let o := Metadata_ProcessMessage (text := plain_text) delete_all_stage
             scenario_msg tagged_heap in
  contents (out_heap o) <$> out_msgs o
  = [(λ part, mkPart (part_data part) ∅)
       <$> contents tagged_heap scenario_msg].
Proof.
  split; [reflexivity|]. split; [exact tagged_allocated|].
  split; [reflexivity|]. split; [reflexivity|].
  apply (delete_all_clears_batch (text := plain_text) delete_all_conf
           delete_all_stage scenario_msg tagged_heap).
  - reflexivity.
  - exact tagged_allocated.
  - reflexivity.
  - reflexivity.
Defined.
